(** * OU4: the graph module and the breadth-first reachability query

    A shallow embedding of [src/OU4/graph.c] and [src/OU4/is_connected.c].

    Nodes live in a heap and are referred to by address, as in the C code:
    the adjacency lists, the work queue and the node array of a graph all
    hold addresses of the same node records, and the [seen] flag is written
    through them.  Functions that touch the heap, that can run into
    behaviour the C standard leaves undefined, or that can end the process
    with [exit], are written in a small state-and-error monad. *)

From Stdlib Require Import ZArith Ascii String Lia.
From stdpp Require Import base tactics option numbers list strings relations.

Local Open Scope Z_scope.

(** ** Memory: node records and their addresses *)

(** A pointer is an address; [NULL] is address 0. *)
Abbreviation pointer := nat (only parsing).
Definition NULL : pointer := 0%nat.

Definition is_null (p : pointer) : bool := Nat.eqb p NULL.

(** Modelled from the spec: dlist.c is not among the sources.  A directed
    list is the sequence of its values, a position the index of an element
    (the end position is the length).  [dlist_insert] puts the value at the
    given position, in front of the element that was there, and returns the
    position of the new element. *)
Abbreviation dlist := (list pointer) (only parsing).
Abbreviation dlist_pos := nat (only parsing).

Definition dlist_empty : dlist := [].
Definition dlist_is_empty (l : dlist) : bool :=
  match l with [] => true | _ => false end.
Definition dlist_first (l : dlist) : dlist_pos := 0%nat.
Definition dlist_insert (l : dlist) (v : pointer) (p : dlist_pos) : dlist * dlist_pos :=
  (take p l ++ v :: drop p l, p).

(** struct node of graph.c. *)
Record node := mk_node {
  name : string;
  seen : bool;
  adjacent_nodes : dlist
}.

(** The heap of node records: the record at address [S i] is the [i]-th
    allocated one.  Nothing is ever freed while the graph is in use. *)
Abbreviation heap := (list node) (only parsing).

Definition heap_lookup (h : heap) (p : pointer) : option node :=
  match p with
  | O => None
  | S i => h !! i
  end.

Definition heap_update (h : heap) (p : pointer) (nd : node) : heap :=
  match p with
  | O => h
  | S i => <[i := nd]> h
  end.

(** ** The monad: heap state, [exit], undefined behaviour, fuel *)

Inductive result (A : Type) : Type :=
  | Ok (a : A) (h : heap)          (* returned normally *)
  | Exit (status : Z) (h : heap)   (* the process called exit(status) *)
  | Undefined                      (* undefined behaviour in C *)
  | Timeout.                       (* the fuel of a loop ran out *)
Arguments Ok {A} a h.
Arguments Exit {A} status h.
Arguments Undefined {A}.
Arguments Timeout {A}.

Definition M (A : Type) : Type := heap → result A.

#[global] Instance M_ret : MRet M := λ A a h, Ok a h.
#[global] Instance M_bind : MBind M := λ A B f m h,
  match m h with
  | Ok a h' => f a h'
  | Exit s h' => Exit s h'
  | Undefined => Undefined
  | Timeout => Timeout
  end.

Definition undefined {A} : M A := λ _, Undefined.
Definition timeout {A} : M A := λ _, Timeout.
Definition exit {A} (status : Z) : M A := λ h, Exit status h.
Definition EXIT_FAILURE : Z := 1.

(** Reading and writing through a node pointer; NULL or an address that
    was never allocated is undefined behaviour. *)
Definition load (p : pointer) : M node := λ h,
  match heap_lookup h p with
  | Some nd => Ok nd h
  | None => Undefined
  end.

Definition store (p : pointer) (nd : node) : M unit := λ h,
  match heap_lookup h p with
  | Some _ => Ok () (heap_update h p nd)
  | None => Undefined
  end.

(** malloc of a node record (allocation is taken to succeed). *)
Definition malloc_node (nd : node) : M pointer := λ h,
  Ok (S (length h)) (h ++ [nd]).

(** C [int]: 32 bits, signed; overflow of + and * is undefined. *)
Definition INT_MIN : Z := - 2 ^ 31.
Definition INT_MAX : Z := 2 ^ 31 - 1.
Definition LONG_MAX : Z := 2 ^ 63 - 1.

Definition in_int (z : Z) : bool := (INT_MIN <=? z) && (z <=? INT_MAX).

Definition int_add (a b : Z) : M Z :=
  if in_int (a + b) then mret (a + b) else undefined.
Definition int_mul (a b : Z) : M Z :=
  if in_int (a * b) then mret (a * b) else undefined.

(** Conversion of a [long] to [int] keeps the low 32 bits. *)
Definition int_of_long (z : Z) : Z :=
  (z + 2 ^ 31) mod 2 ^ 32 - 2 ^ 31.

(** ** The containers graph.c and is_connected.c are built on *)

(** Modelled from the spec: array_1d.c is not among the sources.  An array
    of pointers with index range [low..high]; a slot holds NULL until a
    value is set.  Access outside the range is undefined. *)
Record array_1d := mk_array_1d {
  low : Z;
  high : Z;
  values : list pointer
}.

Definition array_1d_create (lo hi : Z) : array_1d :=
  {| low := lo; high := hi; values := replicate (Z.to_nat (hi - lo + 1)) NULL |}.

Definition array_1d_low (a : array_1d) : Z := low a.
Definition array_1d_high (a : array_1d) : Z := high a.

Definition array_1d_slot (a : array_1d) (i : Z) : option nat :=
  if (low a <=? i) && (i <=? high a) then Some (Z.to_nat (i - low a)) else None.

Definition array_1d_inspect_value (a : array_1d) (i : Z) : M pointer :=
  match array_1d_slot a i with
  | Some k =>
      match values a !! k with
      | Some v => mret v
      | None => undefined
      end
  | None => undefined
  end.

Definition array_1d_has_value (a : array_1d) (i : Z) : M bool :=
  v ← array_1d_inspect_value a i; mret (negb (is_null v)).

Definition array_1d_set_value (a : array_1d) (v : pointer) (i : Z) : M array_1d :=
  match array_1d_slot a i with
  | Some k =>
      if (k <? length (values a))%nat
      then mret {| low := low a; high := high a; values := <[k := v]> (values a) |}
      else undefined
  | None => undefined
  end.

(** Modelled from the spec: queue.c is not among the sources.  A FIFO queue
    of pointers: enqueue at the back, front and dequeue at the head. *)
Abbreviation queue := (list pointer) (only parsing).

Definition queue_empty : queue := [].
Definition queue_is_empty (q : queue) : bool :=
  match q with [] => true | _ => false end.
Definition queue_enqueue (q : queue) (v : pointer) : queue := q ++ [v].
Definition queue_front (q : queue) : M pointer :=
  match q with
  | v :: _ => mret v
  | [] => undefined
  end.
Definition queue_dequeue (q : queue) : queue := tail q.

(** ** graph.c *)

(** struct graph: [nodes] points to the node array ([None] is the NULL
    pointer; the array belongs to this graph alone). *)
Record graph := mk_graph {
  nodes : option array_1d;
  node_amount : Z
}.

Definition the_array (g : graph) : M array_1d :=
  match nodes g with
  | Some a => mret a
  | None => undefined
  end.

Definition nodes_are_equal (n1 n2 : pointer) : M bool :=
  a ← load n1;
  b ← load n2;
  mret (String.eqb (name a) (name b)).

Definition graph_empty (max_nodes : Z) : graph :=
  {| nodes := Some (array_1d_create 0 max_nodes); node_amount := 0 |}.

(** [return g->nodes == 0;] compares the array pointer with NULL. *)
Definition graph_is_empty (g : graph) : bool :=
  match nodes g with
  | None => true
  | Some _ => false
  end.

Definition graph_insert_node (g : graph) (s : string) : M graph :=
  new_node ← malloc_node {| name := s; seen := false; adjacent_nodes := dlist_empty |};
  a ← the_array g;
  a' ← array_1d_set_value a new_node (node_amount g);
  n ← int_add (node_amount g) 1;
  mret {| nodes := Some a'; node_amount := n |}.

Fixpoint graph_find_node_from (g : graph) (s : string) (idx : list Z) : M pointer :=
  match idx with
  | [] => mret NULL
  | i :: idx' =>
      a ← the_array g;
      current_node ← array_1d_inspect_value a i;
      nd ← load current_node;
      if String.eqb (name nd) s then mret current_node
      else graph_find_node_from g s idx'
  end.

Definition graph_find_node (g : graph) (s : string) : M pointer :=
  graph_find_node_from g s (seqZ 0 (node_amount g)).

Definition graph_node_is_seen (g : graph) (n : pointer) : M bool :=
  nd ← load n; mret (seen nd).

Definition graph_node_set_seen (g : graph) (n : pointer) (s : bool) : M graph :=
  nd ← load n;
  _ ← store n {| name := name nd; seen := s; adjacent_nodes := adjacent_nodes nd |};
  mret g.

Definition clear_seen (curr_node : pointer) : M unit :=
  nd ← load curr_node;
  store curr_node {| name := name nd; seen := false;
                     adjacent_nodes := adjacent_nodes nd |}.

Fixpoint graph_reset_seen_from (g : graph) (idx : list Z) : M unit :=
  match idx with
  | [] => mret ()
  | node_idx :: idx' =>
      a ← the_array g;
      has ← array_1d_has_value a node_idx;
      _ ← (if has : bool
           then curr_node ← array_1d_inspect_value a node_idx;
                clear_seen curr_node
           else mret ());
      graph_reset_seen_from g idx'
  end.

Definition graph_reset_seen (g : graph) : M graph :=
  let num_nodes := node_amount g in
  _ ← graph_reset_seen_from g (seqZ 0 num_nodes);
  mret g.

Definition graph_insert_edge (g : graph) (n1 n2 : pointer) : M graph :=
  nd ← load n1;
  let insert_pos := dlist_first (adjacent_nodes nd) in
  _ ← store n1 {| name := name nd; seen := seen nd;
                  adjacent_nodes := (dlist_insert (adjacent_nodes nd) n2 insert_pos).1 |};
  mret g.

Fixpoint graph_choose_node_from (a : array_1d) (idx : list Z) : M pointer :=
  match idx with
  | [] => mret NULL
  | i :: idx' =>
      has ← array_1d_has_value a i;
      if has : bool then array_1d_inspect_value a i
      else graph_choose_node_from a idx'
  end.

Definition graph_choose_node (g : graph) : M pointer :=
  if 0 <? node_amount g
  then a ← the_array g;
       graph_choose_node_from a
         (seqZ (array_1d_low a) (array_1d_high a - array_1d_low a + 1))
  else mret NULL.

Definition graph_neighbours (g : graph) (n : pointer) : M dlist :=
  nd ← load n; mret (adjacent_nodes nd).

(** ** is_connected.c: reading the graph file *)

Definition MAX_INPUT_LENGTH : nat := 500.
Definition MAX_NODE_NAME_LENGTH : nat := 40.
Definition MAX_NODE_CHAR_LENGTH : nat := 41.

Definition newline : ascii := ascii_of_nat 10.
Definition NUL : ascii := ascii_of_nat 0.

Definition char_code (c : ascii) : nat := nat_of_ascii c.

Definition between (lo hi : nat) (c : ascii) : bool :=
  (lo <=? char_code c)%nat && (char_code c <=? hi)%nat.

(** ctype.h in the C locale. *)
Definition isdigit (c : ascii) : bool := between 48 57 c.
Definition isalnum (c : ascii) : bool :=
  isdigit c || between 65 90 c || between 97 122 c.
Definition isspace (c : ascii) : bool :=
  (char_code c =? 32)%nat || between 9 13 c.

(** [s[i]] for a C string: the terminating NUL at and after the end. *)
Definition char_at (s : string) (i : nat) : ascii :=
  match String.get i s with
  | Some c => c
  | None => NUL
  end.

Fixpoint string_forall (f : ascii → bool) (s : string) : bool :=
  match s with
  | EmptyString => true
  | String c s' => f c && string_forall f s'
  end.

(** What the string functions see of a buffer: the characters before the
    first NUL. *)
Fixpoint c_str (s : string) : string :=
  match s with
  | EmptyString => EmptyString
  | String c s' => if Ascii.eqb c NUL then EmptyString else String c (c_str s')
  end.

(** A [FILE*] opened for reading, as the sequence of buffers the successive
    calls [fgets(buf, MAX_INPUT_LENGTH, fp)] are going to deliver: each call
    takes characters up to and including the next newline, and at most
    [MAX_INPUT_LENGTH - 1] of them; at end of file it returns NULL. *)
Abbreviation FILE := (list string) (only parsing).

Fixpoint fgets_chunks (size room : nat) (contents : string) : list string :=
  match contents with
  | EmptyString => []
  | String c rest =>
      if Ascii.eqb c newline || (room <=? 1)%nat
      then String c EmptyString :: fgets_chunks size size rest
      else match fgets_chunks size (room - 1) rest with
           | [] => [String c EmptyString]
           | chunk :: chunks => String c chunk :: chunks
           end
  end.

Definition fopen (fs : string → option string) (path : string) : option FILE :=
  match fs path with
  | Some contents =>
      Some (c_str <$> fgets_chunks (MAX_INPUT_LENGTH - 1) (MAX_INPUT_LENGTH - 1) contents)
  | None => None
  end.

(** [strtol(s, NULL, 10)] on a string that starts with a digit (the only
    use): the value of the leading digits, LONG_MAX when it is out of
    range. *)
Fixpoint strtol_digits (s : string) (acc : Z) : Z :=
  match s with
  | EmptyString => acc
  | String c s' =>
      if isdigit c
      then strtol_digits s' (acc * 10 + (Z.of_nat (char_code c) - 48))
      else acc
  end.

Definition strtol (s : string) : Z := Z.min (strtol_digits s 0) LONG_MAX.

(** [sscanf(line, "%s%s", src, dest)], where [src] and [dest] are buffers
    of [MAX_NODE_CHAR_LENGTH] bytes: each [%s] skips white space and stores
    the run of non-space characters that follows, with a NUL after it; a
    conversion that meets the end of the line stores nothing, and its
    buffer keeps its indeterminate contents ([None] in the pair).  The
    format has no field width: a name of more than
    [MAX_NODE_CHAR_LENGTH - 1] characters is written past the end of its
    buffer, which is undefined behaviour (the result [None]). *)
Fixpoint skip_space (s : string) : string :=
  match s with
  | EmptyString => EmptyString
  | String c s' => if isspace c then skip_space s' else s
  end.

Fixpoint scan_token (s : string) : string * string :=
  match s with
  | EmptyString => (EmptyString, EmptyString)
  | String c s' =>
      if isspace c then (EmptyString, s)
      else let '(tok, rest) := scan_token s' in (String c tok, rest)
  end.

Definition scan_string (s : string) : option string * string :=
  match skip_space s with
  | EmptyString => (None, EmptyString)
  | s1 => let '(tok, rest) := scan_token s1 in (Some tok, rest)
  end.

Definition fits_buffer (tok : string) : bool :=
  (String.length tok <? MAX_NODE_CHAR_LENGTH)%nat.

Definition sscanf_ss (line : string) : option (option string * option string) :=
  match scan_string line with
  | (None, _) => Some (None, None)
  | (Some tok1, rest) =>
      if fits_buffer tok1 then
        match (scan_string rest).1 with
        | None => Some (Some tok1, None)
        | Some tok2 =>
            if fits_buffer tok2 then Some (Some tok1, Some tok2) else None
        end
      else None
  end.

(** struct graph_edges *)
Record graph_edges := mk_graph_edges {
  src : string;
  dest : string
}.

(** Modelled from the spec: list.c is not among the sources.  The list of
    edge records, a position being the index of an element.  [list_insert]
    puts the value in front of the element at the given position and
    returns the position of the new element. *)
Abbreviation edge_list := (list graph_edges) (only parsing).
Abbreviation list_pos := nat (only parsing).

Definition list_first (l : edge_list) : list_pos := 0%nat.
Definition list_insert (l : edge_list) (v : graph_edges) (p : list_pos) : edge_list * list_pos :=
  (take p l ++ v :: drop p l, p).

Fixpoint get_number_of_edges_scan (fp : FILE) : Z * bool * FILE :=
  match fp with
  | [] => (0, false, [])
  | info_from_file :: fp' =>
      if isdigit (char_at info_from_file 0) then
        let file_size := String.length info_from_file in
        if Ascii.eqb (char_at info_from_file (file_size - 1)) newline
        then (int_of_long (strtol (substring 0 (file_size - 1) info_from_file)), true, fp')
        else get_number_of_edges_scan fp'
      else get_number_of_edges_scan fp'
  end.

Definition get_number_of_edges (fp : FILE) : M (Z * FILE) :=
  let '(edgeCount, foundEdges, fp') := get_number_of_edges_scan fp in
  if foundEdges && (0 <? edgeCount)
  then n ← int_mul edgeCount 2; mret (n, fp')
  else mret (0, fp').

(** [memcpy] of the 41 bytes of the buffer, then a NUL in the last one. *)
Definition create_edge (src dest : string) : graph_edges :=
  {| src := substring 0 (MAX_NODE_CHAR_LENGTH - 1) src;
     dest := substring 0 (MAX_NODE_CHAR_LENGTH - 1) dest |}.

Definition validate_node_names (src dest : string) : bool :=
  if negb (string_forall isalnum src) then false
  else if negb (string_forall isalnum dest) then false
  else if (MAX_NODE_NAME_LENGTH <? String.length src)%nat then false
  else if (MAX_NODE_NAME_LENGTH <? String.length dest)%nat then false
  else true.

(** The buffers [src] and [dest] are not initialised.  When [sscanf] has
    stored no name, the first loop of [validate_node_names] reads
    indeterminate memory.  When it has stored one name, that loop returns
    false, before [dest] is looked at, if the name has a character that is
    not alphanumeric; if it has none, the second loop reads indeterminate
    memory. *)
Fixpoint add_edges_to_list_from (fp : FILE) (l : edge_list) (current_position : list_pos)
    : M edge_list :=
  match fp with
  | [] => mret l
  | info_from_file :: fp' =>
      if negb (Ascii.eqb (char_at info_from_file 0) "#")
         && negb (Ascii.eqb (char_at info_from_file 0) newline)
      then
        match sscanf_ss info_from_file with
        | Some (Some src, Some dest) =>
            if validate_node_names src dest
            then let '(l', pos) := list_insert l (create_edge src dest) current_position in
                 add_edges_to_list_from fp' l' pos
            else exit EXIT_FAILURE
        | Some (Some src, None) =>
            if string_forall isalnum src then undefined else exit EXIT_FAILURE
        | Some (None, _) => undefined
        | None => undefined
        end
      else add_edges_to_list_from fp' l current_position
  end.

Definition add_edges_to_list (fp : FILE) (l : edge_list) : M edge_list :=
  add_edges_to_list_from fp l (list_first l).

(** [fs] is the file system: the contents of the files that can be opened. *)
Definition info_from_file (fs : string → option string) (argv : list string)
    (l : edge_list) : M (Z * edge_list) :=
  if (length argv <? 2)%nat then exit EXIT_FAILURE
  else
    match fopen fs (default EmptyString (argv !! 1%nat)) with
    | None => exit EXIT_FAILURE
    | Some fp =>
        '(edges_amount, fp) ← get_number_of_edges fp;
        if edges_amount =? 0 then exit EXIT_FAILURE
        else
          l ← add_edges_to_list fp l;
          n ← int_mul edges_amount 2;
          mret (n, l)
    end.

Fixpoint create_graph (g : graph) (l : edge_list) : M graph :=
  match l with
  | [] => mret g
  | edge :: l' =>
      s ← graph_find_node g (src edge);
      '(g, s) ← (if is_null s
                 then g ← graph_insert_node g (src edge);
                      s ← graph_find_node g (src edge);
                      mret (g, s)
                 else mret (g, s));
      d ← graph_find_node g (dest edge);
      '(g, d) ← (if is_null d
                 then g ← graph_insert_node g (dest edge);
                      d ← graph_find_node g (dest edge);
                      mret (g, d)
                 else mret (g, d));
      g ← graph_insert_edge g s d;
      create_graph g l'
  end.

Definition prepare_graph (fs : string → option string) (argv : list string)
    (l : edge_list) : M graph :=
  '(edges_amount, l) ← info_from_file fs argv l;
  let g := graph_empty edges_amount in
  create_graph g l.

(** ** is_connected.c: the breadth-first search *)

Definition visit_node (g : graph) (n : pointer) (q : queue) : M queue :=
  is_seen ← graph_node_is_seen g n;
  if negb is_seen
  then _ ← graph_node_set_seen g n true; mret (queue_enqueue q n)
  else mret q.

Definition destination_found (g : graph) (q : queue) : M bool :=
  _ ← graph_reset_seen g; mret true.

(** The loop that copies [neighbourSet]: every element is inserted at the
    first position of the copy. *)
Fixpoint copy_neighbours (neighbourSet neighbourSetCopy : dlist) : dlist :=
  match neighbourSet with
  | [] => neighbourSetCopy
  | element :: rest =>
      copy_neighbours rest
        (dlist_insert neighbourSetCopy element (dlist_first neighbourSetCopy)).1
  end.

(** The loop over the copy; [true] when a neighbour equal to [dest] ends
    it. *)
Fixpoint scan_neighbours (g : graph) (dest : pointer) (q : queue)
    (neighbourSetCopy : dlist) : M (bool * queue) :=
  match neighbourSetCopy with
  | [] => mret (false, q)
  | neighbourNode :: rest =>
      found ← nodes_are_equal neighbourNode dest;
      if found : bool then mret (true, q)
      else q ← visit_node g neighbourNode q;
           scan_neighbours g dest q rest
  end.

(** The [while (!queue_is_empty(q))] loop; [fuel] bounds the number of
    times its condition is evaluated. *)
Fixpoint find_path_loop (fuel : nat) (g : graph) (dest : pointer) (q : queue) : M bool :=
  match fuel with
  | O => timeout
  | S fuel' =>
      if queue_is_empty q
      then _ ← graph_reset_seen g; mret false
      else
        newNode ← queue_front q;
        let q := queue_dequeue q in
        neighbourSet ← graph_neighbours g newNode;
        let neighbourSetCopy := copy_neighbours neighbourSet dlist_empty in
        '(found, q) ← scan_neighbours g dest q neighbourSetCopy;
        if found : bool then destination_found g q
        else find_path_loop fuel' g dest q
  end.

Definition find_path (fuel : nat) (g : graph) (src dest : pointer) : M bool :=
  g ← graph_node_set_seen g src true;
  let q := queue_empty in
  let q := queue_enqueue q src in
  find_path_loop fuel g dest q.

(** * The vocabulary of the statements *)

(** ** Views of the heap *)

Definition valid (h : heap) (p : pointer) : bool :=
  match heap_lookup h p with Some _ => true | None => false end.

Definition name_of (h : heap) (p : pointer) : string :=
  match heap_lookup h p with Some nd => name nd | None => EmptyString end.

Definition is_seen (h : heap) (p : pointer) : bool :=
  match heap_lookup h p with Some nd => seen nd | None => false end.

Definition adj (h : heap) (p : pointer) : dlist :=
  match heap_lookup h p with Some nd => adjacent_nodes nd | None => [] end.

(** The heap after [n->seen = s]. *)
Definition with_seen (s : bool) (nd : node) : node :=
  {| name := name nd; seen := s; adjacent_nodes := adjacent_nodes nd |}.

Definition mark (s : bool) (h : heap) (p : pointer) : heap :=
  match heap_lookup h p with
  | Some nd => heap_update h p (with_seen s nd)
  | None => h
  end.

(** The recorded edge set: [b] is in the adjacency collection of [a]. *)
Definition edge (h : heap) (a b : pointer) : Prop := b ∈ adj h a.

(** A directed walk (of any length, also none) and a walk of at least one
    edge. *)
Definition directed_walk (h : heap) : relation pointer := rtc (edge h).
Definition nonempty_walk (h : heap) : relation pointer := tc (edge h).

(** ** Graphs as the program builds them *)

Definition slot_value (a : array_1d) (i : Z) : pointer :=
  match array_1d_slot a i with
  | Some k => default NULL (values a !! k)
  | None => NULL
  end.

(** The nodes stored in the graph: the array slots [0 .. node_amount - 1]. *)
Definition stored_nodes (g : graph) : list pointer :=
  match nodes g with
  | Some a => slot_value a <$> seqZ 0 (node_amount g)
  | None => []
  end.

Definition is_stored (g : graph) (p : pointer) : bool :=
  existsb (Nat.eqb p) (stored_nodes g).

(** The array exists, every slot below [node_amount] holds the address of
    a node record, and the adjacency collections hold stored nodes only
    ([graph_insert_edge] is undefined otherwise). *)
Definition graph_wf (h : heap) (g : graph) : bool :=
  match nodes g with
  | Some _ =>
      forallb (λ p, valid h p && forallb (is_stored g) (adj h p)) (stored_nodes g)
  | None => false
  end.

(** "All the nodes in the graph have different names" (graph.c). *)
Definition names_unique (h : heap) (g : graph) : bool :=
  bool_decide (NoDup (name_of h <$> stored_nodes g)).

(** No stored node is marked as seen: the state between two queries. *)
Definition all_unseen (h : heap) (g : graph) : bool :=
  forallb (λ p, negb (is_seen h p)) (stored_nodes g).

(** No adjacency collection of the graph contains [a]. *)
Definition no_incoming (h : heap) (g : graph) (a : pointer) : bool :=
  forallb (λ p, negb (existsb (Nat.eqb a) (adj h p))) (stored_nodes g).

(** Only the [seen] flags of the nodes in [V] change between two heaps. *)
Definition shape (nd : node) : string * dlist := (name nd, adjacent_nodes nd).

Definition evolves (V : list pointer) (h h' : heap) : Prop :=
  shape <$> h = shape <$> h' ∧ ∀ p, p ∉ V → is_seen h' p = is_seen h p.

Fixpoint count_unseen (h : heap) (V : list pointer) : nat :=
  match V with
  | [] => 0
  | p :: V' => ((if is_seen h p then 0 else 1) + count_unseen h V')%nat
  end.

(** The nodes of [V] are allocated and their adjacency collections stay
    inside [V]. *)
Definition closed (V : list pointer) (h : heap) : Prop :=
  ∀ p, p ∈ V → valid h p = true ∧ ∀ n, n ∈ adj h p → n ∈ V.

(** The invariant of the outer loop of [find_path], for a query from [src]
    for [dest] started in the heap [h0]: the queue holds seen nodes, seen
    nodes are reached from [src], and a seen node that has left the queue
    has had all its neighbours looked at. *)
Definition bfs_inv (V : list pointer) (h0 : heap) (src dest : pointer)
    (h : heap) (q : queue) : Prop :=
  evolves V h0 h ∧
  (∀ p, p ∈ q → p ∈ V ∧ is_seen h p = true) ∧
  (∀ p, p ∈ V → is_seen h p = true → directed_walk h0 src p) ∧
  is_seen h src = true ∧
  (∀ p, p ∈ V → is_seen h p = true → p ∉ q →
        ∀ n, n ∈ adj h0 p → is_seen h n = true ∧ name_of h0 n ≠ name_of h0 dest).

(** The state of a graph between two queries: well formed, with unique
    names, no node marked seen, and a node count that is not negative. *)
Definition graph_ok (h : heap) (g : graph) : bool :=
  graph_wf h g && names_unique h g && all_unseen h g && (0 <=? node_amount g).

(** An array whose storage matches its index range. *)
Definition array_1d_wf (a : array_1d) : bool :=
  (length (values a) =? Z.to_nat (high a - low a + 1))%nat.

(** The capacity a graph was created with: the [max_nodes] given to
    [graph_empty], kept as the upper index limit of the node array. *)
Definition capacity (g : graph) : option Z := array_1d_high <$> nodes g.

(** A run of calls of [graph_insert_edge], in chronological order. *)
Fixpoint insert_edges (g : graph) (es : list (pointer * pointer)) : M graph :=
  match es with
  | [] => mret g
  | (n1, n2) :: es' => g ← graph_insert_edge g n1 n2; insert_edges g es'
  end.

(** The destinations of the edges of [es] that leave [n], in the order of
    [es]. *)
Fixpoint dests_from (n : pointer) (es : list (pointer * pointer)) : list pointer :=
  match es with
  | [] => []
  | (n1, n2) :: es' => if Nat.eqb n1 n then n2 :: dests_from n es' else dests_from n es'
  end.

(** ** Files *)

(** The lines [add_edges_to_list] takes for edges.  A line has two names
    when [sscanf] stores two, each within its buffer.  A line has a bad
    name when the names [sscanf] stores on it, one or two, stay within
    their buffers and one of them has a character that is not
    alphanumeric. *)
Definition is_edge_line (line : string) : bool :=
  negb (Ascii.eqb (char_at line 0) "#") && negb (Ascii.eqb (char_at line 0) newline).

Definition has_two_names (line : string) : bool :=
  match sscanf_ss line with
  | Some (Some _, Some _) => true
  | _ => false
  end.

Definition has_bad_name (line : string) : bool :=
  match sscanf_ss line with
  | Some (Some src, Some dest) =>
      negb (string_forall isalnum src) || negb (string_forall isalnum dest)
  | Some (Some src, None) => negb (string_forall isalnum src)
  | _ => false
  end.

(** ** Sample data *)

(** A graph of four nodes with a cycle: A → B, B → A, B → C (inserted after
    B → A) and D → A.  No edge leads to D. *)
Definition sample_heap : heap :=
  [ {| name := "A"; seen := false; adjacent_nodes := [2%nat] |};
    {| name := "B"; seen := false; adjacent_nodes := [3%nat; 1%nat] |};
    {| name := "C"; seen := false; adjacent_nodes := [] |};
    {| name := "D"; seen := false; adjacent_nodes := [1%nat] |} ].

Definition sample_graph : graph :=
  {| nodes := Some {| low := 0; high := 8;
                      values := [1%nat; 2%nat; 3%nat; 4%nat; NULL; NULL; NULL; NULL; NULL] |};
     node_amount := 4 |}.

(** An array with nothing in its first two slots, and a graph on it. *)
Definition gap_array : array_1d :=
  {| low := 0; high := 3; values := [NULL; NULL; 2%nat; 1%nat] |}.
Definition gap_graph : graph := {| nodes := Some gap_array; node_amount := 2 |}.

Definition nl : string := String newline EmptyString.

(** The file with edge count 2 and the lines "A B" and "B C". *)
Definition abc_file : string := "2" ++ nl ++ "A B" ++ nl ++ "B C" ++ nl.

(** A file whose second edge line has a name with a hyphen. *)
Definition hyphen_file : string :=
  "# a graph" ++ nl ++ "2" ++ nl ++ "x y" ++ nl ++ "a-b c" ++ nl.

Definition sample_fs (path : string) : option string :=
  if String.eqb path "abc.txt" then Some abc_file
  else if String.eqb path "hyphen.txt" then Some hyphen_file
  else None.

(** A file whose second edge line is the single name a-b; the line after
    it carries a single name too. *)
Definition lone_name_file : string :=
  "2" ++ nl ++ "x y" ++ nl ++ "a-b" ++ nl ++ "z" ++ nl.

Definition lone_name_fs (path : string) : option string :=
  if String.eqb path "lone.txt" then Some lone_name_file else None.

(** A file whose edge line starts with a name of 41 characters. *)
Definition long_name : string := string_of_list_ascii (repeat "a"%char 41).

Definition long_name_file : string := "1" ++ nl ++ long_name ++ " b" ++ nl.

Definition long_name_fs (path : string) : option string :=
  if String.eqb path "long.txt" then Some long_name_file else None.

(** * More of graph.c and is_connected.c *)

(** ** graph.c: graph_has_edges *)

Fixpoint graph_has_edges_from (g : graph) (idx : list Z) : M bool :=
  match idx with
  | [] => mret false
  | i :: idx' =>
      a ← the_array g;
      current_node ← array_1d_inspect_value a i;
      nd ← load current_node;
      if negb (dlist_is_empty (adjacent_nodes nd)) then mret true
      else graph_has_edges_from g idx'
  end.

Definition graph_has_edges (g : graph) : M bool :=
  graph_has_edges_from g (seqZ 0 (node_amount g)).

(** ** is_connected.c: the dialogue *)

(** What [printf] writes is the second component of the result. *)

(** [strncmp(s, t, n) == 0] for strings without a NUL inside. *)
Definition strncmp_eq (s t : string) (n : nat) : bool :=
  String.eqb (substring 0 n s) (substring 0 n t).

Definition check_for_quit (input : string) : bool * string :=
  if strncmp_eq input "quit" 4
  then (true, "Normal exit." ++ nl)%string
  else (false, EmptyString).

Definition msg_no_such_node : string :=
  "One or both nodes do not exist. Try again. " ++ nl.
Definition msg_path (origin destination : string) : string :=
  "There is a path from " ++ origin ++ " to " ++ destination ++ "." ++ nl ++ nl.
Definition msg_no_path (origin destination : string) : string :=
  "There is no path from " ++ origin ++ " to " ++ destination ++ "." ++ nl ++ nl.

(** The text printed is the value returned; [fuel] is the fuel of the
    loop of [find_path]. *)
Definition find_and_show_path (fuel : nat) (g : graph) (origin destination : string)
    : M string :=
  scource_node ← graph_find_node g origin;
  destination_node ← graph_find_node g destination;
  if is_null scource_node || is_null destination_node
  then mret msg_no_such_node
  else
    found ← find_path fuel g scource_node destination_node;
    if found : bool then mret (msg_path origin destination)
    else mret (msg_no_path origin destination).

(** ** Vocabulary for the statements about them *)

(** A computation that neither ends the process nor runs out of fuel: it
    returns or is undefined. *)
Definition never_exits {A} (m : M A) : Prop :=
  ∀ h, match m h with
       | Ok _ _ | Undefined => True
       | Exit _ _ | Timeout => False
       end.

(** A computation that leaves the heap as it is, also when it ends the
    process, and ends it with EXIT_FAILURE only. *)
Definition exits_cleanly {A} (m : M A) : Prop :=
  ∀ h, match m h with
       | Ok _ h' => h' = h
       | Exit s h' => s = EXIT_FAILURE ∧ h' = h
       | _ => True
       end.

(** Some stored node carries the name. *)
Definition has_name (h : heap) (g : graph) (nm : string) : Prop :=
  ∃ p, p ∈ stored_nodes g ∧ name_of h p = nm.

(** The edges of a graph, by the names of their end points. *)
Definition named_edge (h : heap) (g : graph) (s d : string) : Prop :=
  ∃ a b, a ∈ stored_nodes g ∧ b ∈ stored_nodes g ∧
         name_of h a = s ∧ name_of h b = d ∧ edge h a b.

(** The edges of a list of edge records, and the chains of one or more of
    them. *)
Definition record_edge (l : edge_list) (s d : string) : Prop :=
  {| src := s; dest := d |} ∈ l.
Definition record_chain (l : edge_list) : relation string := tc (record_edge l).

(** The line that [get_number_of_edges] takes for the edge count: it
    starts with a digit and ends with a newline. *)
Definition is_count_line (line : string) : bool :=
  isdigit (char_at line 0)
  && Ascii.eqb (char_at line (String.length line - 1)) newline.

(** An edge line with two names that [validate_node_names] accepts, and
    the record made of it. *)
Definition valid_edge_line (line : string) : bool :=
  match sscanf_ss line with
  | Some (Some s, Some d) => validate_node_names s d
  | _ => false
  end.

Definition edge_of_line (line : string) : graph_edges :=
  match sscanf_ss line with
  | Some (Some s, Some d) => create_edge s d
  | _ => create_edge EmptyString EmptyString
  end.

(** The edge records of the edge lines of a file, in the order of the
    file, and the names that occur in a list of records. *)
Definition file_edges (fp : FILE) : edge_list :=
  edge_of_line <$> List.filter is_edge_line fp.

Definition occurs_in (l : edge_list) (x : string) : Prop :=
  ∃ e, e ∈ l ∧ (x = src e ∨ x = dest e).

(** What the loader makes of [abc_file], starting with an empty heap. *)
Definition abc_heap : heap :=
  [ {| name := "B"; seen := false; adjacent_nodes := [2%nat] |};
    {| name := "C"; seen := false; adjacent_nodes := [] |};
    {| name := "A"; seen := false; adjacent_nodes := [1%nat] |} ].

Definition abc_graph : graph :=
  {| nodes := Some {| low := 0; high := 8;
                      values := [1%nat; 2%nat; 3%nat; NULL; NULL; NULL; NULL; NULL; NULL] |};
     node_amount := 3 |}.

(** A graph in which two nodes carry the name B; no edge leads to the
    second of them. *)
Definition twin_heap : heap :=
  [ {| name := "A"; seen := false; adjacent_nodes := [2%nat] |};
    {| name := "B"; seen := false; adjacent_nodes := [] |};
    {| name := "B"; seen := false; adjacent_nodes := [] |} ].

Definition twin_graph : graph :=
  {| nodes := Some {| low := 0; high := 4; values := [1%nat; 2%nat; 3%nat; NULL; NULL] |};
     node_amount := 3 |}.

(** A file that declares one edge and names six nodes. *)
Definition crowded_file : string :=
  "1" ++ nl ++ "a b" ++ nl ++ "c d" ++ nl ++ "e f" ++ nl.

Definition crowded_fs (path : string) : option string :=
  if String.eqb path "crowded.txt" then Some crowded_file else None.

(** The node array of [g] has at least [n] free slots after the stored
    nodes, and counting them does not overflow. *)
Definition has_room (g : graph) (n : Z) : Prop :=
  ∃ a, nodes g = Some a ∧ array_1d_wf a = true ∧ low a ≤ 0 ∧
       node_amount g + n ≤ high a + 1 ∧ high a < INT_MAX.

(** * Proofs *)

Ltac in_nil :=
  match goal with
  | H : _ ∈ [] |- _ => by apply elem_of_nil in H
  end.

(** ** The monad *)

Lemma bind_run {A B} (m : M A) (f : A → M B) h :
  (m ≫= f) h =
  match m h with
  | Ok a h' => f a h'
  | Exit s h' => Exit s h'
  | Undefined => Undefined
  | Timeout => Timeout
  end.
Proof. reflexivity. Qed.

Lemma bind_Ok {A B} (m : M A) (f : A → M B) h a h' :
  m h = Ok a h' → (m ≫= f) h = f a h'.
Proof. intros E. rewrite bind_run, E. reflexivity. Qed.

Lemma ret_run {A} (a : A) h : (mret a : M A) h = Ok a h.
Proof. reflexivity. Qed.

(** ** Heap lemmas *)

Lemma valid_lookup h p : valid h p = true ↔ ∃ nd, heap_lookup h p = Some nd.
Proof.
  unfold valid. destruct (heap_lookup h p); split; eauto; try discriminate.
  intros [? ?]; discriminate.
Qed.

Lemma load_run h p nd : heap_lookup h p = Some nd → load p h = Ok nd h.
Proof. intros E. unfold load. rewrite E. reflexivity. Qed.

Lemma heap_lookup_update h p q nd :
  valid h p = true →
  heap_lookup (heap_update h p nd) q = if decide (q = p) then Some nd else heap_lookup h q.
Proof.
  intros Hv. apply valid_lookup in Hv as [nd0 Hnd0].
  destruct p as [|i]; [discriminate|]. simpl in Hnd0. simpl heap_update.
  destruct (decide (q = S i)) as [->|N].
  - apply list_lookup_insert_eq. eapply lookup_lt_Some; eauto.
  - destruct q as [|j]; [done|]. simpl. apply list_lookup_insert_ne. congruence.
Qed.

Lemma heap_lookup_mark s h p q :
  heap_lookup (mark s h p) q =
  if decide (q = p) then with_seen s <$> heap_lookup h p else heap_lookup h q.
Proof.
  unfold mark. destruct (heap_lookup h p) as [nd|] eqn:E.
  - rewrite heap_lookup_update by (apply valid_lookup; eauto).
    destruct (decide _); done.
  - destruct (decide _) as [->|]; [by rewrite E | done].
Qed.

Lemma valid_mark s h p q : valid (mark s h p) q = valid h q.
Proof.
  unfold valid. rewrite heap_lookup_mark.
  destruct (decide _) as [->|]; [|done]. by destruct (heap_lookup h p).
Qed.

Lemma name_of_mark s h p q : name_of (mark s h p) q = name_of h q.
Proof.
  unfold name_of. rewrite heap_lookup_mark.
  destruct (decide _) as [->|]; [|done]. by destruct (heap_lookup h p).
Qed.

Lemma adj_mark s h p q : adj (mark s h p) q = adj h q.
Proof.
  unfold adj. rewrite heap_lookup_mark.
  destruct (decide _) as [->|]; [|done]. by destruct (heap_lookup h p).
Qed.

Lemma is_seen_mark s h p q :
  valid h p = true →
  is_seen (mark s h p) q = if decide (q = p) then s else is_seen h q.
Proof.
  intros Hv. apply valid_lookup in Hv as [nd Hnd].
  unfold is_seen. rewrite heap_lookup_mark.
  destruct (decide _) as [->|]; [|done]. by rewrite Hnd.
Qed.

Lemma shape_mark s h p : shape <$> mark s h p = shape <$> h.
Proof.
  unfold mark. destruct (heap_lookup h p) as [nd|] eqn:E; [|done].
  destruct p as [|i]; [done|]. simpl in *.
  rewrite list_fmap_insert. apply list_insert_id.
  rewrite list_lookup_fmap, E. reflexivity.
Qed.

Lemma graph_node_set_seen_run g h p s :
  valid h p = true → graph_node_set_seen g p s h = Ok g (mark s h p).
Proof.
  intros Hv. apply valid_lookup in Hv as [nd Hnd].
  unfold graph_node_set_seen. rewrite (bind_Ok _ _ _ _ _ (load_run _ _ _ Hnd)).
  unfold mark, store. rewrite bind_run, Hnd. reflexivity.
Qed.

Lemma clear_seen_run h p :
  valid h p = true → clear_seen p h = Ok () (mark false h p).
Proof.
  intros Hv. apply valid_lookup in Hv as [nd Hnd].
  unfold clear_seen. rewrite (bind_Ok _ _ _ _ _ (load_run _ _ _ Hnd)).
  unfold mark, store. rewrite Hnd. reflexivity.
Qed.

Lemma graph_node_is_seen_run g h p :
  valid h p = true → graph_node_is_seen g p h = Ok (is_seen h p) h.
Proof.
  intros Hv. apply valid_lookup in Hv as [nd Hnd].
  unfold graph_node_is_seen, is_seen.
  rewrite (bind_Ok _ _ _ _ _ (load_run _ _ _ Hnd)), Hnd. reflexivity.
Qed.

Lemma graph_neighbours_run g h p :
  valid h p = true → graph_neighbours g p h = Ok (adj h p) h.
Proof.
  intros Hv. apply valid_lookup in Hv as [nd Hnd].
  unfold graph_neighbours, adj.
  rewrite (bind_Ok _ _ _ _ _ (load_run _ _ _ Hnd)), Hnd. reflexivity.
Qed.

Lemma nodes_are_equal_run h n1 n2 :
  valid h n1 = true → valid h n2 = true →
  nodes_are_equal n1 n2 h = Ok (String.eqb (name_of h n1) (name_of h n2)) h.
Proof.
  intros [a Ha]%valid_lookup [b Hb]%valid_lookup.
  unfold nodes_are_equal, name_of.
  rewrite (bind_Ok _ _ _ _ _ (load_run _ _ _ Ha)).
  rewrite (bind_Ok _ _ _ _ _ (load_run _ _ _ Hb)), Ha, Hb. reflexivity.
Qed.

(** ** The relation between the heaps of one query *)

Lemma evolves_refl V h : evolves V h h.
Proof. split; done. Qed.

Lemma evolves_trans V h1 h2 h3 : evolves V h1 h2 → evolves V h2 h3 → evolves V h1 h3.
Proof.
  intros [S1 F1] [S2 F2]. split; [congruence|].
  intros p Hp. rewrite F2, F1; done.
Qed.

Lemma evolves_mark V s h p : p ∈ V → evolves V h (mark s h p).
Proof.
  intros Hp. split; [by rewrite shape_mark|].
  intros q Hq. unfold is_seen. rewrite heap_lookup_mark.
  destruct (decide _) as [->|]; done.
Qed.

Lemma evolves_lookup V h h' p :
  evolves V h h' → shape <$> heap_lookup h p = shape <$> heap_lookup h' p.
Proof.
  intros [S _]. destruct p as [|i]; [done|]. simpl.
  rewrite <- !list_lookup_fmap. by rewrite S.
Qed.

Lemma evolves_valid V h h' p : evolves V h h' → valid h' p = valid h p.
Proof.
  intros E. apply (evolves_lookup _ _ _ p) in E. unfold valid.
  destruct (heap_lookup h p), (heap_lookup h' p); done.
Qed.

Lemma evolves_adj V h h' p : evolves V h h' → adj h' p = adj h p.
Proof.
  intros E. apply (evolves_lookup _ _ _ p) in E. unfold adj.
  destruct (heap_lookup h p), (heap_lookup h' p); simpl in E; try done.
  by injection E.
Qed.

Lemma evolves_name_of V h h' p : evolves V h h' → name_of h' p = name_of h p.
Proof.
  intros E. apply (evolves_lookup _ _ _ p) in E. unfold name_of.
  destruct (heap_lookup h p), (heap_lookup h' p); simpl in E; try done.
  by injection E.
Qed.

Lemma evolves_closed V h h' : evolves V h h' → closed V h → closed V h'.
Proof.
  intros E C p Hp. destruct (C p Hp) as [Hv Ha].
  rewrite (evolves_valid _ _ _ _ E), (evolves_adj _ _ _ _ E). done.
Qed.

(** ** Counting the nodes that are not yet seen *)

Lemma count_unseen_le_length h V : (count_unseen h V ≤ length V)%nat.
Proof. induction V as [|p V IH]; simpl; [lia|]. destruct (is_seen h p); lia. Qed.

Lemma count_unseen_mono h h' V :
  (∀ p, is_seen h p = true → is_seen h' p = true) →
  (count_unseen h' V ≤ count_unseen h V)%nat.
Proof.
  intros Hm. induction V as [|p V IH]; simpl; [lia|].
  destruct (is_seen h p) eqn:E.
  - rewrite (Hm p E). lia.
  - destruct (is_seen h' p); lia.
Qed.

Lemma count_unseen_strict h h' V x :
  (∀ p, is_seen h p = true → is_seen h' p = true) →
  x ∈ V → is_seen h x = false → is_seen h' x = true →
  (count_unseen h' V < count_unseen h V)%nat.
Proof.
  intros Hm Hx H0 H1. induction V as [|p V IH]; [by apply elem_of_nil in Hx|].
  simpl. apply elem_of_cons in Hx as [<-|Hx].
  - rewrite H0, H1. pose proof (count_unseen_mono h h' V Hm). lia.
  - specialize (IH Hx). destruct (is_seen h p) eqn:E.
    + rewrite (Hm p E). lia.
    + destruct (is_seen h' p); lia.
Qed.

Lemma count_unseen_lt_length h V x :
  x ∈ V → is_seen h x = true → (count_unseen h V < length V)%nat.
Proof.
  intros Hx H1. induction V as [|p V IH]; [by apply elem_of_nil in Hx|].
  simpl. apply elem_of_cons in Hx as [<-|Hx].
  - rewrite H1. pose proof (count_unseen_le_length h V). lia.
  - specialize (IH Hx). destruct (is_seen h p); lia.
Qed.

(** ** The inner loops of [find_path] *)

Lemma copy_neighbours_rev l acc : copy_neighbours l acc = rev l ++ acc.
Proof.
  revert acc. induction l as [|x l IH]; intros acc; simpl; [done|].
  rewrite IH. unfold dlist_insert, dlist_first. simpl.
  by rewrite <- app_assoc.
Qed.

Lemma visit_node_run g h n q :
  valid h n = true →
  visit_node g n q h =
  if is_seen h n then Ok q h else Ok (queue_enqueue q n) (mark true h n).
Proof.
  intros Hv. unfold visit_node.
  rewrite (bind_Ok _ _ _ _ _ (graph_node_is_seen_run g _ _ Hv)).
  destruct (is_seen h n); simpl; [done|].
  rewrite (bind_Ok _ _ _ _ _ (graph_node_set_seen_run g _ _ true Hv)). done.
Qed.

(** What one pass over the neighbours does: the neighbours not seen before
    are marked and appended to the queue, in order, unless one of them
    carries the name of [dest]. *)
Lemma scan_neighbours_spec g dest V l : ∀ q h,
  (∀ n, n ∈ l → n ∈ V) → closed V h → valid h dest = true →
  ∃ found new h',
    scan_neighbours g dest q l h = Ok (found, q ++ new) h' ∧
    evolves V h h' ∧
    (∀ p, is_seen h p = true → is_seen h' p = true) ∧
    (∀ n, n ∈ new → n ∈ l ∧ is_seen h n = false ∧ is_seen h' n = true) ∧
    (∀ p, is_seen h' p = true → is_seen h p = true ∨ p ∈ new) ∧
    (count_unseen h' V + length new ≤ count_unseen h V)%nat ∧
    (found = true → ∃ n, n ∈ l ∧ name_of h n = name_of h dest) ∧
    (found = false → ∀ n, n ∈ l → is_seen h' n = true ∧ name_of h n ≠ name_of h dest).
Proof.
  induction l as [|n l IH]; intros q h Hl HC Hd.
  - exists false, [], h. rewrite app_nil_r. simpl.
    split_and!; auto using evolves_refl; try done; try lia; intros; in_nil.
  - assert (Hn : n ∈ V) by (apply Hl; left).
    destruct (HC n Hn) as [Hvn _].
    simpl. rewrite (bind_Ok _ _ _ _ _ (nodes_are_equal_run _ _ _ Hvn Hd)).
    destruct (String.eqb (name_of h n) (name_of h dest)) eqn:Eq.
    + exists true, [], h. rewrite app_nil_r.
      split_and!; auto using evolves_refl; try done; try (simpl; lia);
        try (intros; in_nil).
      intros _. exists n. split; [left|]. by apply String.eqb_eq.
    + apply String.eqb_neq in Eq.
      rewrite bind_run, (visit_node_run g _ _ q Hvn).
      destruct (is_seen h n) eqn:Es.
      * destruct (IH q h) as (found & new & h' & Hrun & He & Hm & Hnew & Hs & Hc & Ht & Hf);
          [intros; apply Hl; by right | done | done |].
        exists found, new, h'. split_and!; try done.
        -- intros x Hx. destruct (Hnew x Hx) as (? & ? & ?). split_and!; try done. by right.
        -- intros E. destruct (Ht E) as (x & Hx & ?). exists x. split; [by right|done].
        -- intros E x [->|Hx]%elem_of_cons; [split; [by apply Hm|done]|].
           by apply Hf.
      * set (h1 := mark true h n).
        assert (He1 : evolves V h h1) by by apply evolves_mark.
        destruct (IH (queue_enqueue q n) h1)
          as (found & new & h' & Hrun & He & Hm & Hnew & Hs & Hc & Ht & Hf).
        { intros; apply Hl; by right. }
        { by eapply evolves_closed. }
        { by rewrite (evolves_valid _ _ _ _ He1). }
        assert (Hm1 : ∀ p, is_seen h p = true → is_seen h1 p = true).
        { intros p Hp. unfold h1. rewrite is_seen_mark by done. by case_decide. }
        assert (Hn1 : is_seen h1 n = true).
        { unfold h1. rewrite is_seen_mark by done. by case_decide. }
        exists found, (n :: new), h'. split_and!.
        -- rewrite Hrun. unfold queue_enqueue. by rewrite <- app_assoc.
        -- by eapply evolves_trans.
        -- auto.
        -- intros x [->|Hx]%elem_of_cons.
           ++ split_and!; [left | done | by apply Hm].
           ++ destruct (Hnew x Hx) as (? & Hx1 & ?). split_and!; [by right| |done].
              destruct (is_seen h x) eqn:Ex; [|done]. by rewrite (Hm1 x Ex) in Hx1.
        -- intros p Hp. destruct (Hs p Hp) as [Hp1|Hp1]; [|right; by right].
           unfold h1 in Hp1. rewrite is_seen_mark in Hp1 by done.
           case_decide; [subst; right; left | by left].
        -- pose proof (count_unseen_strict h h1 V n Hm1 Hn Es Hn1). simpl. lia.
        -- intros E. destruct (Ht E) as (x & Hx & Hx'). exists x. split; [by right|].
           by rewrite <- !(evolves_name_of _ _ _ _ He1).
        -- intros E x [->|Hx]%elem_of_cons; [split; [by apply Hm|done]|].
           destruct (Hf E x Hx) as [? Hx']. split; [done|].
           by rewrite <- !(evolves_name_of _ _ _ _ He1).
Qed.

(** ** Well-formed graphs *)

Lemma is_stored_elem g p : is_stored g p = true ↔ p ∈ stored_nodes g.
Proof.
  unfold is_stored. rewrite existsb_exists, list_elem_of_In. split.
  - intros (x & Hx & ->%Nat.eqb_eq). done.
  - intros Hp. exists p. split; [done | apply Nat.eqb_refl].
Qed.

Lemma graph_wf_array h g : graph_wf h g = true → ∃ a, nodes g = Some a.
Proof. unfold graph_wf. destruct (nodes g); [eauto | discriminate]. Qed.

Lemma graph_wf_closed h g : graph_wf h g = true → closed (stored_nodes g) h.
Proof.
  unfold graph_wf. destruct (nodes g) eqn:Ea; [|discriminate].
  rewrite forallb_forall. intros Hwf p Hp. apply list_elem_of_In in Hp.
  apply Hwf in Hp as [Hv Ha]%andb_true_iff. split; [done|].
  intros n Hn. rewrite forallb_forall in Ha.
  apply is_stored_elem, Ha. by apply list_elem_of_In.
Qed.

Lemma length_stored_nodes h g :
  graph_wf h g = true → length (stored_nodes g) = Z.to_nat (node_amount g).
Proof.
  intros [a Ea]%graph_wf_array. unfold stored_nodes. rewrite Ea.
  by rewrite length_fmap, length_seqZ.
Qed.

Lemma valid_not_null h p : valid h p = true → is_null p = false.
Proof. by destruct p. Qed.

Lemma array_1d_inspect_value_run a i h :
  is_null (slot_value a i) = false →
  array_1d_inspect_value a i h = Ok (slot_value a i) h.
Proof.
  unfold slot_value, array_1d_inspect_value.
  destruct (array_1d_slot a i); [|done].
  destruct (values a !! n); simpl; done.
Qed.

Lemma array_1d_has_value_run a i h :
  is_null (slot_value a i) = false → array_1d_has_value a i h = Ok true h.
Proof.
  intros Hn. unfold array_1d_has_value.
  rewrite (bind_Ok _ _ _ _ _ (array_1d_inspect_value_run _ _ _ Hn)), ret_run.
  by rewrite Hn.
Qed.

Lemma graph_reset_seen_from_spec g a V idx : ∀ h,
  nodes g = Some a → closed V h → (∀ i, i ∈ idx → slot_value a i ∈ V) →
  ∃ h', graph_reset_seen_from g idx h = Ok () h' ∧ evolves V h h' ∧
        (∀ p, is_seen h' p = true → is_seen h p = true) ∧
        (∀ i, i ∈ idx → is_seen h' (slot_value a i) = false).
Proof.
  intros h Ea. revert h. induction idx as [|i idx IH]; intros h HC Hidx.
  - exists h. split_and!; auto using evolves_refl. intros; in_nil.
  - set (p := slot_value a i).
    assert (Hp : p ∈ V) by (apply Hidx; left).
    destruct (HC p Hp) as [Hv _].
    pose proof (valid_not_null _ _ Hv) as Hnn.
    assert (He1 : evolves V h (mark false h p)) by by apply evolves_mark.
    destruct (IH (mark false h p)) as (h' & Hrun & He & Hm & Hc).
    { by eapply evolves_closed. }
    { intros; apply Hidx; by right. }
    assert (Hp1 : is_seen (mark false h p) p = false).
    { rewrite is_seen_mark by done. by case_decide. }
    exists h'. split_and!.
    + simpl. unfold the_array. rewrite Ea, bind_run, ret_run.
      rewrite (bind_Ok _ _ _ _ _ (array_1d_has_value_run _ _ _ Hnn)).
      rewrite bind_run.
      rewrite (bind_Ok _ _ _ _ _ (array_1d_inspect_value_run _ _ _ Hnn)).
      fold p. by rewrite (clear_seen_run _ _ Hv).
    + by eapply evolves_trans.
    + intros x Hx. apply Hm in Hx. rewrite is_seen_mark in Hx by done.
      by case_decide.
    + intros j [->|Hj]%elem_of_cons; [|by apply Hc].
      fold p. destruct (is_seen h' p) eqn:E; [|done].
      apply Hm in E. congruence.
Qed.

Lemma all_unseen_spec h g :
  all_unseen h g = true ↔ ∀ p, p ∈ stored_nodes g → is_seen h p = false.
Proof.
  unfold all_unseen. rewrite forallb_forall. split.
  - intros H p Hp%list_elem_of_In. apply H in Hp. by destruct (is_seen h p).
  - intros H p Hp%list_elem_of_In. by rewrite (H p Hp).
Qed.

Lemma graph_reset_seen_spec h g :
  graph_wf h g = true →
  ∃ h', graph_reset_seen g h = Ok g h' ∧ evolves (stored_nodes g) h h' ∧
        all_unseen h' g = true.
Proof.
  intros Hwf. destruct (graph_wf_array _ _ Hwf) as [a Ea].
  destruct (graph_reset_seen_from_spec g a (stored_nodes g)
              (seqZ 0 (node_amount g)) h Ea (graph_wf_closed _ _ Hwf))
    as (h' & Hrun & He & _ & Hc).
  { intros i Hi. unfold stored_nodes. rewrite Ea. by apply list_elem_of_fmap_2. }
  exists h'. split_and!; [|done|].
  - unfold graph_reset_seen. by rewrite (bind_Ok _ _ _ _ _ Hrun).
  - apply all_unseen_spec. intros p Hp. unfold stored_nodes in Hp.
    rewrite Ea in Hp. apply list_elem_of_fmap in Hp as (i & -> & Hi). by apply Hc.
Qed.

Lemma graph_wf_evolves V h h' g : evolves V h h' → graph_wf h' g = graph_wf h g.
Proof.
  intros E. unfold graph_wf. destruct (nodes g); [|done].
  induction (stored_nodes g) as [|p l IH]; simpl; [done|].
  by rewrite IH, (evolves_valid _ _ _ _ E), (evolves_adj _ _ _ _ E).
Qed.

(** ** The outer loop of [find_path] *)

Lemma elem_of_copy_neighbours l n : n ∈ copy_neighbours l dlist_empty ↔ n ∈ l.
Proof.
  rewrite copy_neighbours_rev, app_nil_r.
  by rewrite !list_elem_of_In, <- in_rev.
Qed.

Lemma find_path_loop_nil fuel g dest h :
  find_path_loop (S fuel) g dest [] h =
  match graph_reset_seen g h with
  | Ok _ h' => Ok false h'
  | Exit s h' => Exit s h'
  | Undefined => Undefined
  | Timeout => Timeout
  end.
Proof. reflexivity. Qed.

Lemma find_path_loop_cons fuel g dest u q h :
  valid h u = true →
  find_path_loop (S fuel) g dest (u :: q) h =
  match scan_neighbours g dest q (copy_neighbours (adj h u) dlist_empty) h with
  | Ok (true, q') h' => destination_found g q' h'
  | Ok (false, q') h' => find_path_loop fuel g dest q' h'
  | Exit s h' => Exit s h'
  | Undefined => Undefined
  | Timeout => Timeout
  end.
Proof.
  intros Hv. cbn [find_path_loop queue_is_empty queue_front queue_dequeue tail].
  rewrite bind_run, ret_run.
  rewrite (bind_Ok _ _ _ _ _ (graph_neighbours_run g _ _ Hv)).
  rewrite bind_run.
  destruct (scan_neighbours _ _ _ _ _) as [[[] ?] ?| | |]; reflexivity.
Qed.

Lemma destination_found_spec h g q :
  graph_wf h g = true →
  ∃ h', destination_found g q h = Ok true h' ∧ evolves (stored_nodes g) h h' ∧
        all_unseen h' g = true.
Proof.
  intros Hwf. destruct (graph_reset_seen_spec _ _ Hwf) as (h' & Hrun & He & Hu).
  exists h'. unfold destination_found. by rewrite (bind_Ok _ _ _ _ _ Hrun).
Qed.

(** With fuel for one more test of the loop condition than there are
    unseen nodes and queued nodes, the loop ends, and it ends with every
    flag cleared. *)
Lemma find_path_loop_total g dest fuel : ∀ q h,
  graph_wf h g = true → valid h dest = true →
  (∀ p, p ∈ q → p ∈ stored_nodes g) →
  (count_unseen h (stored_nodes g) + length q < fuel)%nat →
  ∃ r h', find_path_loop fuel g dest q h = Ok r h' ∧
          evolves (stored_nodes g) h h' ∧ all_unseen h' g = true.
Proof.
  induction fuel as [|fuel IH]; intros q h Hwf Hd Hq Hc; [lia|].
  pose proof (graph_wf_closed _ _ Hwf) as HC.
  destruct q as [|u q].
  - rewrite find_path_loop_nil.
    destruct (graph_reset_seen_spec _ _ Hwf) as (h' & -> & He & Hu).
    by exists false, h'.
  - assert (Hu : u ∈ stored_nodes g) by (apply Hq; left).
    destruct (HC u Hu) as [Hvu Hau].
    rewrite (find_path_loop_cons _ _ _ _ _ _ Hvu).
    destruct (scan_neighbours_spec g dest (stored_nodes g)
                (copy_neighbours (adj h u) dlist_empty) q h)
      as (found & new & h1 & -> & He & Hm & Hnew & Hs & Hcnt & _ & _); [|done|done|].
    { intros n Hn. apply Hau. by apply elem_of_copy_neighbours. }
    assert (Hwf1 : graph_wf h1 g = true) by by rewrite (graph_wf_evolves _ _ _ _ He).
    destruct found.
    + destruct (destination_found_spec h1 g (q ++ new) Hwf1) as (h' & -> & He' & Hu').
      exists true, h'. split_and!; [done| |done]. by eapply evolves_trans.
    + destruct (IH (q ++ new) h1) as (r & h' & -> & He' & Hu'); [done| | | |].
      * by rewrite (evolves_valid _ _ _ _ He).
      * intros p [Hp|Hp]%elem_of_app; [apply Hq; by right|].
        destruct (Hnew p Hp) as [Hp' _]. apply Hau. by apply elem_of_copy_neighbours.
      * rewrite length_app. simpl in Hc. lia.
      * exists r, h'. split_and!; [done| |done]. by eapply evolves_trans.
Qed.

Lemma tc_last {A} (R : relation A) x z : tc R x z → ∃ y, rtc R x y ∧ R y z.
Proof.
  induction 1 as [x z H|x y z H _ (y' & Hr & Hl)].
  - exists x. split; [apply rtc_refl | done].
  - exists y'. split; [by eapply rtc_l | done].
Qed.

Lemma destination_found_true g q h r h' : destination_found g q h = Ok r h' → r = true.
Proof.
  unfold destination_found. rewrite bind_run.
  destruct (graph_reset_seen g h); [|done..]. rewrite ret_run. congruence.
Qed.

(** When the queue is empty, everything that can be reached has been seen
    and looked at. *)
Lemma bfs_inv_saturated V h0 src dest h p :
  closed V h0 → src ∈ V → bfs_inv V h0 src dest h [] →
  directed_walk h0 src p → p ∈ V ∧ is_seen h p = true.
Proof.
  intros HC Hsrc (He & Hq & Hw & Hs & Hdone). revert p.
  apply (rtc_ind_r (λ p, p ∈ V ∧ is_seen h p = true)); [done|].
  intros p n Hwalk Hedge [Hp Hsp]. split.
  - by apply (HC p Hp).
  - apply (Hdone p Hp Hsp); [|done]. intros ?; in_nil.
Qed.

(** The loop answers [true] exactly when a node that carries the name of
    [dest] ends a walk of at least one edge from [src]. *)
Lemma find_path_loop_correct g src dest h0 fuel : ∀ q h r h',
  graph_wf h0 g = true → valid h0 dest = true → src ∈ stored_nodes g →
  bfs_inv (stored_nodes g) h0 src dest h q →
  find_path_loop fuel g dest q h = Ok r h' →
  (r = true ↔ ∃ n, name_of h0 n = name_of h0 dest ∧ nonempty_walk h0 src n).
Proof.
  induction fuel as [|fuel IH]; intros q h r h' Hwf Hd Hsrc Hinv Hrun; [done|].
  pose proof (graph_wf_closed _ _ Hwf) as HC0.
  pose proof Hinv as (He & Hq & Hw & Hs & Hdone).
  pose proof (evolves_closed _ _ _ He HC0) as HC.
  destruct q as [|u q].
  - rewrite find_path_loop_nil in Hrun.
    destruct (graph_reset_seen g h); [|done..].
    injection Hrun as <- _. split; [done|].
    intros (n & Hname & Hwalk). apply tc_last in Hwalk as (p & Hwalk & Hedge).
    destruct (bfs_inv_saturated _ _ _ _ _ _ HC0 Hsrc Hinv Hwalk) as [Hp Hsp].
    destruct (Hdone p Hp Hsp) with n as [_ Hn]; [intros ?; in_nil|done|done].
  - destruct (Hq u) as [Hu Hsu]; [left|].
    destruct (HC u Hu) as [Hvu Hau].
    rewrite (find_path_loop_cons _ _ _ _ _ _ Hvu) in Hrun.
    destruct (scan_neighbours_spec g dest (stored_nodes g)
                (copy_neighbours (adj h u) dlist_empty) q h)
      as (found & new & h1 & Hscan & He1 & Hm & Hnew & Hseen & _ & Ht & Hf); [|done| |].
    { intros n Hn. apply Hau. by apply elem_of_copy_neighbours. }
    { by rewrite (evolves_valid _ _ _ _ He). }
    rewrite Hscan in Hrun.
    assert (Hadj : ∀ n, n ∈ copy_neighbours (adj h u) dlist_empty ↔ edge h0 u n).
    { intros n. unfold edge. rewrite elem_of_copy_neighbours.
      by rewrite (evolves_adj _ _ _ _ He). }
    destruct found.
    + apply destination_found_true in Hrun as ->. split; [intros _|done].
      destruct Ht as (n & Hn & Hname); [done|]. exists n. split.
      * by rewrite <- !(evolves_name_of _ _ _ _ He).
      * eapply tc_rtc_l; [by apply (Hw u)|]. apply tc_once. by apply Hadj.
    + apply (IH _ _ _ _ Hwf Hd Hsrc) in Hrun; [done|].
      specialize (Hf eq_refl). split_and!.
      * by eapply evolves_trans.
      * intros p [Hp|Hp]%elem_of_app.
        -- destruct (Hq p) as [? ?]; [by right|]. auto.
        -- destruct (Hnew p Hp) as (Hp' & _ & ?). split; [|done].
           apply Hau. by apply elem_of_copy_neighbours.
      * intros p HpV Hp. destruct (Hseen p Hp) as [Hp'|Hp']; [by apply Hw|].
        destruct (Hnew p Hp') as (Hp'' & _ & _).
        eapply rtc_r; [by apply (Hw u) | by apply Hadj].
      * by apply Hm.
      * intros p HpV Hp Hnq n Hn.
        destruct (Hseen p Hp) as [Hp'|Hp'].
        2:{ exfalso. apply Hnq. apply elem_of_app. by right. }
        destruct (decide (p = u)) as [->|Hne].
        -- destruct (Hf n) as [? Hname]; [by apply Hadj|]. split; [done|].
           by rewrite <- !(evolves_name_of _ _ _ _ He).
        -- destruct (Hdone p HpV Hp') with n as [? ?]; [|done|auto].
           intros [->|Hin]%elem_of_cons; [done|].
           apply Hnq. apply elem_of_app. by left.
Qed.

(** ** [find_path] *)

Lemma find_path_run fuel g src dest h :
  valid h src = true →
  find_path fuel g src dest h = find_path_loop fuel g dest [src] (mark true h src).
Proof.
  intros Hv. unfold find_path.
  by rewrite (bind_Ok _ _ _ _ _ (graph_node_set_seen_run g _ _ true Hv)).
Qed.

Lemma find_path_total h g src dest fuel :
  graph_wf h g = true → src ∈ stored_nodes g → dest ∈ stored_nodes g →
  (Z.to_nat (node_amount g) < fuel)%nat →
  ∃ r h', find_path fuel g src dest h = Ok r h' ∧
          evolves (stored_nodes g) h h' ∧ all_unseen h' g = true.
Proof.
  intros Hwf Hs Hd Hfuel.
  pose proof (graph_wf_closed _ _ Hwf) as HC.
  destruct (HC src Hs) as [Hvs _]. destruct (HC dest Hd) as [Hvd _].
  rewrite (find_path_run _ _ _ _ _ Hvs).
  pose proof (evolves_mark (stored_nodes g) true h src Hs) as He.
  destruct (find_path_loop_total g dest fuel [src] (mark true h src))
    as (r & h' & Hrun & He' & Hu).
  - by rewrite (graph_wf_evolves _ _ _ _ He).
  - by rewrite (evolves_valid _ _ _ _ He).
  - by intros p ->%list_elem_of_singleton.
  - assert (is_seen (mark true h src) src = true) as Hseen.
    { rewrite is_seen_mark by done. by case_decide. }
    pose proof (count_unseen_lt_length _ _ _ Hs Hseen).
    rewrite (length_stored_nodes _ _ Hwf) in *. simpl. lia.
  - exists r, h'. split_and!; [done| |done]. by eapply evolves_trans.
Qed.

Lemma find_path_correct h g src dest fuel r h' :
  graph_wf h g = true → all_unseen h g = true →
  src ∈ stored_nodes g → dest ∈ stored_nodes g →
  find_path fuel g src dest h = Ok r h' →
  (r = true ↔ ∃ n, name_of h n = name_of h dest ∧ nonempty_walk h src n).
Proof.
  intros Hwf Hclean Hs Hd Hrun.
  pose proof (graph_wf_closed _ _ Hwf) as HC.
  destruct (HC src Hs) as [Hvs _]. destruct (HC dest Hd) as [Hvd _].
  rewrite (find_path_run _ _ _ _ _ Hvs) in Hrun.
  rewrite all_unseen_spec in Hclean.
  eapply (find_path_loop_correct g src dest h); [done..| |exact Hrun].
  assert (Hseen : ∀ p, p ∈ stored_nodes g → is_seen (mark true h src) p = true → p = src).
  { intros p Hp. rewrite is_seen_mark by done. case_decide; [done|].
    by rewrite (Hclean p Hp). }
  split_and!.
  - by apply evolves_mark.
  - intros p ->%list_elem_of_singleton. split; [done|].
    rewrite is_seen_mark by done. by case_decide.
  - intros p Hp Hsp. rewrite (Hseen p Hp Hsp). apply rtc_refl.
  - rewrite is_seen_mark by done. by case_decide.
  - intros p Hp Hsp Hnq. exfalso. apply Hnq.
    rewrite (Hseen p Hp Hsp). apply list_elem_of_singleton. done.
Qed.

Lemma walk_stays_stored V h a b :
  closed V h → a ∈ V → directed_walk h a b → b ∈ V.
Proof.
  intros HC Ha. revert b. apply (rtc_ind_r (λ b, b ∈ V)); [done|].
  intros p n _ Hedge Hp. by apply (HC p Hp).
Qed.

Lemma names_unique_inj h g p q :
  names_unique h g = true → p ∈ stored_nodes g → q ∈ stored_nodes g →
  name_of h p = name_of h q → p = q.
Proof.
  unfold names_unique. intros Hnd%bool_decide_eq_true.
  induction (stored_nodes g) as [|x l IH]; [intros; in_nil|].
  rewrite fmap_cons in Hnd. apply NoDup_cons in Hnd as [Hx Hnd].
  intros [->|Hp]%elem_of_cons [->|Hq]%elem_of_cons Hname; auto.
  - exfalso. apply Hx. rewrite Hname. by apply list_elem_of_fmap_2.
  - exfalso. apply Hx. rewrite <- Hname. by apply list_elem_of_fmap_2.
Qed.

Lemma no_incoming_spec h g a p :
  no_incoming h g a = true → p ∈ stored_nodes g → ¬ edge h p a.
Proof.
  unfold no_incoming, edge. rewrite forallb_forall.
  intros H Hp%list_elem_of_In Ha. apply H in Hp.
  apply negb_true_iff in Hp. apply not_true_iff_false in Hp. apply Hp.
  apply existsb_exists. exists a. split; [by apply list_elem_of_In | apply Nat.eqb_refl].
Qed.

(** A heap is determined by the shape of its records and their flags. *)
Lemma evolves_unseen_eq h h' g :
  evolves (stored_nodes g) h h' → all_unseen h g = true → all_unseen h' g = true →
  h' = h.
Proof.
  intros He Hu Hu'. rewrite all_unseen_spec in Hu, Hu'.
  apply list_eq. intros i.
  pose proof (evolves_lookup _ _ _ (S i) He) as Hshape. simpl in Hshape.
  assert (Hseen : is_seen h' (S i) = is_seen h (S i)).
  { destruct (decide (S i ∈ stored_nodes g)) as [Hin|Hout].
    - by rewrite Hu, Hu'.
    - by apply He. }
  unfold is_seen in Hseen. simpl in Hseen.
  destruct (h !! i) as [[n1 s1 a1]|], (h' !! i) as [[n2 s2 a2]|];
    simpl in *; try done.
  injection Hshape as -> ->. by subst.
Qed.

Lemma find_path_iff_nonempty_walk h g a b fuel :
  graph_wf h g = true → names_unique h g = true → all_unseen h g = true →
  is_stored g a = true → is_stored g b = true →
  (Z.to_nat (node_amount g) < fuel)%nat →
  ∃ r h', find_path fuel g a b h = Ok r h' ∧ (r = true ↔ nonempty_walk h a b).
Proof.
  intros Hwf Huniq Hclean Ha%is_stored_elem Hb%is_stored_elem Hfuel.
  destruct (find_path_total h g a b fuel Hwf Ha Hb Hfuel) as (r & h' & Hrun & _ & _).
  exists r, h'. split; [done|].
  rewrite (find_path_correct h g a b fuel r h' Hwf Hclean Ha Hb Hrun).
  split; [|by exists b].
  intros (n & Hname & Hwalk).
  assert (n ∈ stored_nodes g) as Hn.
  { eapply walk_stays_stored; [by eapply graph_wf_closed|exact Ha|].
    by apply tc_rtc. }
  by rewrite <- (names_unique_inj h g n b Huniq Hn Hb Hname).
Qed.

(** Some queries on the sample graph. *)
Example find_path_sample_A_C :
  find_path 5 sample_graph 1 3 sample_heap = Ok true sample_heap.
Proof. reflexivity. Qed.

Example find_path_sample_C_A :
  find_path 5 sample_graph 3 1 sample_heap = Ok false sample_heap.
Proof. reflexivity. Qed.

Example find_path_sample_A_A :
  find_path 5 sample_graph 1 1 sample_heap = Ok true sample_heap.
Proof. reflexivity. Qed.

Example find_path_sample_A_D :
  find_path 5 sample_graph 1 4 sample_heap = Ok false sample_heap.
Proof. reflexivity. Qed.

(** C1.  On a graph as the program holds it between two queries (the array
    slots hold node records, adjacency collections hold stored nodes, names
    are unique, no node is marked seen), for two different stored nodes [a]
    and [b], [find_path] returns, and it returns true if and only if there
    is a directed walk from [a] to [b] along the recorded edges. *)
Theorem find_path_iff_directed_walk h g a b fuel :
  graph_wf h g = true → names_unique h g = true → all_unseen h g = true →
  is_stored g a = true → is_stored g b = true → a ≠ b →
  (Z.to_nat (node_amount g) < fuel)%nat →
  ∃ r h', find_path fuel g a b h = Ok r h' ∧ (r = true ↔ directed_walk h a b).
Proof.
  intros Hwf Huniq Hclean Ha Hb Hne Hfuel.
  destruct (find_path_iff_nonempty_walk h g a b fuel) as (r & h' & Hrun & Hr); try done.
  exists r, h'. split; [done|]. rewrite Hr. unfold directed_walk, nonempty_walk.
  rewrite rtc_tc. split; [by right | by intros [?|?]].
Qed.

Lemma find_path_iff_directed_walk_witness :
  ∃ r h', find_path 5 sample_graph 1 3 sample_heap = Ok r h' ∧
          (r = true ↔ directed_walk sample_heap 1%nat 3%nat).
Proof.
  apply (find_path_iff_directed_walk sample_heap sample_graph 1%nat 3%nat 5%nat);
    try reflexivity; simpl; lia.
Defined.

(** C2.  Every call of [find_path] on a well-formed graph returns with the
    seen flag of every stored node false, whatever it returns; the same
    call made again then leaves the heap as it is, and when the flags were
    false before the first call (the state every call leaves), the second
    call returns the same result as the first. *)
Theorem find_path_resets_seen_and_repeats h g src dest fuel :
  graph_wf h g = true → is_stored g src = true → is_stored g dest = true →
  (Z.to_nat (node_amount g) < fuel)%nat →
  ∃ r h', find_path fuel g src dest h = Ok r h' ∧ all_unseen h' g = true ∧
          ∃ r', find_path fuel g src dest h' = Ok r' h' ∧
                (all_unseen h g = true → h' = h ∧ r' = r).
Proof.
  intros Hwf Hs%is_stored_elem Hd%is_stored_elem Hfuel.
  destruct (find_path_total h g src dest fuel Hwf Hs Hd Hfuel)
    as (r & h' & Hrun & He & Hu).
  assert (Hwf' : graph_wf h' g = true) by by rewrite (graph_wf_evolves _ _ _ _ He).
  destruct (find_path_total h' g src dest fuel Hwf' Hs Hd Hfuel)
    as (r' & h'' & Hrun' & He' & Hu').
  pose proof (evolves_unseen_eq h' h'' g He' Hu Hu') as ->.
  exists r, h'. split_and!; [done..|].
  exists r'. split; [done|].
  intros Hclean. pose proof (evolves_unseen_eq h h' g He Hclean Hu) as ->.
  split; [done|]. congruence.
Qed.

Lemma find_path_resets_seen_and_repeats_witness :
  ∃ r h', find_path 5 sample_graph 1 3 sample_heap = Ok r h' ∧
          all_unseen h' sample_graph = true ∧
          ∃ r', find_path 5 sample_graph 1 3 h' = Ok r' h' ∧
                (all_unseen sample_heap sample_graph = true →
                 h' = sample_heap ∧ r' = r).
Proof.
  apply (find_path_resets_seen_and_repeats sample_heap sample_graph 1%nat 3%nat 5%nat);
    try reflexivity; simpl; lia.
Defined.

(** C8.  On a graph between two queries, for a stored node [a] that is in
    no adjacency collection, [find_path] from [a] to [a] returns false. *)
Theorem find_path_self_without_incoming h g a fuel :
  graph_wf h g = true → names_unique h g = true → all_unseen h g = true →
  is_stored g a = true → no_incoming h g a = true →
  (Z.to_nat (node_amount g) < fuel)%nat →
  ∃ h', find_path fuel g a a h = Ok false h'.
Proof.
  intros Hwf Huniq Hclean Ha Hin Hfuel.
  destruct (find_path_iff_nonempty_walk h g a a fuel) as (r & h' & Hrun & Hr); try done.
  exists h'. destruct r; [|done]. exfalso.
  destruct Hr as [Hr _]. destruct (tc_last _ _ _ (Hr eq_refl)) as (p & Hwalk & Hedge).
  apply (no_incoming_spec h g a p Hin); [|done].
  eapply walk_stays_stored; [by eapply graph_wf_closed| |exact Hwalk].
  by apply is_stored_elem.
Qed.

Lemma find_path_self_without_incoming_witness :
  ∃ h', find_path 5 sample_graph 4 4 sample_heap = Ok false h'.
Proof.
  apply (find_path_self_without_incoming sample_heap sample_graph 4%nat 5%nat);
    try reflexivity; simpl; lia.
Defined.

(** C9.  [visit_node] puts a node into the queue only when its seen flag is
    false, and sets the flag as it does; and [find_path] on a well-formed
    graph of n nodes returns once the fuel allows n + 1 tests of the loop
    condition, that is at most n passes through the loop body, whatever the
    edges and the flags are. *)
Theorem find_path_terminates h g src dest fuel :
  graph_wf h g = true → is_stored g src = true → is_stored g dest = true →
  (Z.to_nat (node_amount g) < fuel)%nat →
  (∀ n q, is_stored g n = true →
     if is_seen h n then visit_node g n q h = Ok q h
     else ∃ h1, visit_node g n q h = Ok (q ++ [n]) h1 ∧ is_seen h1 n = true) ∧
  ∃ r h', find_path fuel g src dest h = Ok r h'.
Proof.
  intros Hwf Hs%is_stored_elem Hd%is_stored_elem Hfuel. split.
  - intros n q Hn%is_stored_elem.
    destruct (graph_wf_closed _ _ Hwf n Hn) as [Hv _].
    rewrite (visit_node_run g h n q Hv). destruct (is_seen h n); [done|].
    eexists. split; [done|]. rewrite is_seen_mark by done. by case_decide.
  - destruct (find_path_total h g src dest fuel Hwf Hs Hd Hfuel)
      as (r & h' & Hrun & _ & _).
    by exists r, h'.
Qed.

Lemma find_path_terminates_witness :
  (∀ n q, is_stored sample_graph n = true →
     if is_seen sample_heap n then visit_node sample_graph n q sample_heap = Ok q sample_heap
     else ∃ h1, visit_node sample_graph n q sample_heap = Ok (q ++ [n]) h1 ∧
                is_seen h1 n = true) ∧
  ∃ r h', find_path 5 sample_graph 2 2 sample_heap = Ok r h'.
Proof.
  apply (find_path_terminates sample_heap sample_graph 2%nat 2%nat 5%nat);
    try reflexivity; simpl; lia.
Defined.

(** ** graph.c: emptiness, choosing a node, inserting edges *)

Lemma graph_insert_node_array g s h g' h' :
  graph_insert_node g s h = Ok g' h' → graph_is_empty g' = false.
Proof.
  unfold graph_insert_node. rewrite bind_run. unfold malloc_node.
  unfold the_array. destruct (nodes g) as [a|]; [|done].
  rewrite bind_run, ret_run, bind_run.
  destruct (array_1d_set_value a _ _ _) as [a' h1| | |]; [|done..].
  rewrite bind_run. destruct (int_add _ _ _) as [n h2| | |]; [|done..].
  rewrite ret_run. by intros [= <- _].
Qed.

(** C3.  A graph fresh from [graph_empty] has node count zero, and
    [graph_is_empty] returns false on it: the function compares the array
    pointer, which [graph_empty] has just set, with NULL. *)
Theorem graph_is_empty_fresh_graph max_nodes :
  node_amount (graph_empty max_nodes) = 0 ∧
  graph_is_empty (graph_empty max_nodes) = false.
Proof. split; reflexivity. Qed.

Lemma array_1d_inspect_value_wf a j h :
  array_1d_wf a = true → low a ≤ j ≤ high a →
  array_1d_inspect_value a j h = Ok (slot_value a j) h.
Proof.
  unfold array_1d_wf, array_1d_inspect_value, slot_value, array_1d_slot.
  intros Hwf%Nat.eqb_eq Hj.
  destruct (low a <=? j) eqn:E1; [|lia]. destruct (j <=? high a) eqn:E2; [|lia].
  simpl. destruct (values a !! Z.to_nat (j - low a)) eqn:E; [done|].
  apply lookup_ge_None in E. lia.
Qed.

Lemma graph_choose_node_from_spec a h i : ∀ n lo,
  array_1d_wf a = true → low a ≤ lo → lo + Z.of_nat n ≤ high a + 1 →
  lo ≤ i < lo + Z.of_nat n →
  is_null (slot_value a i) = false →
  (∀ j, lo ≤ j < i → is_null (slot_value a j) = true) →
  graph_choose_node_from a (seqZ lo (Z.of_nat n)) h = Ok (slot_value a i) h.
Proof.
  induction n as [|n IH]; intros lo Hwf Hlo Hhi Hi Hocc Hfree; [lia|].
  rewrite seqZ_cons by lia. simpl. unfold array_1d_has_value.
  rewrite bind_run, bind_run, (array_1d_inspect_value_wf a lo h Hwf) by lia.
  rewrite ret_run.
  destruct (decide (lo = i)) as [->|Hne].
  - rewrite Hocc. simpl. apply array_1d_inspect_value_wf; [done|lia].
  - rewrite Hfree by lia. simpl.
    replace (Z.pred (Z.of_nat (S n))) with (Z.of_nat n) by lia.
    apply IH; try done; try lia. intros j Hj. apply Hfree. lia.
Qed.

(** C10.  On a graph with no nodes [graph_choose_node] returns NULL, a
    defined result; on a graph with nodes it returns the pointer in the
    lowest slot of the array that holds one. *)
Theorem graph_choose_node_result g h :
  (node_amount g ≤ 0 → graph_choose_node g h = Ok NULL h) ∧
  (∀ a i, 0 < node_amount g → nodes g = Some a → array_1d_wf a = true →
          low a ≤ i ≤ high a →
          is_null (slot_value a i) = false →
          (∀ j, low a ≤ j < i → is_null (slot_value a j) = true) →
          graph_choose_node g h = Ok (slot_value a i) h).
Proof.
  split.
  - intros Hn. unfold graph_choose_node.
    destruct (0 <? node_amount g) eqn:E; [lia|done].
  - intros a i Hn Ea Hwf Hi Hocc Hfree. unfold graph_choose_node, the_array.
    destruct (0 <? node_amount g) eqn:E; [|lia].
    rewrite Ea, bind_run, ret_run. unfold array_1d_low, array_1d_high.
    rewrite <- (Z2Nat.id (high a - low a + 1)) by lia.
    apply graph_choose_node_from_spec; try done; lia.
Qed.

Lemma graph_choose_node_result_witness :
  graph_choose_node (graph_empty 4) [] = Ok NULL [] ∧
  graph_choose_node gap_graph sample_heap = Ok 2%nat sample_heap ∧
  graph_choose_node sample_graph sample_heap = Ok 1%nat sample_heap.
Proof.
  split_and!.
  - apply (graph_choose_node_result (graph_empty 4) []). simpl. lia.
  - apply (proj2 (graph_choose_node_result gap_graph sample_heap) gap_array 2);
      try reflexivity; simpl; try lia.
    intros j Hj. assert (j = 0 ∨ j = 1) as [-> | ->] by lia; reflexivity.
  - apply (proj2 (graph_choose_node_result sample_graph sample_heap)
             {| low := 0; high := 8;
                values := [1%nat; 2%nat; 3%nat; 4%nat; NULL; NULL; NULL; NULL; NULL] |} 0);
      try reflexivity; simpl; lia.
Defined.

Lemma graph_insert_edge_run g h n1 n2 :
  valid h n1 = true →
  ∃ h1, graph_insert_edge g n1 n2 h = Ok g h1 ∧
        (∀ p, valid h1 p = valid h p) ∧
        (∀ p, adj h1 p = if decide (p = n1) then n2 :: adj h p else adj h p).
Proof.
  intros Hv. destruct (proj1 (valid_lookup _ _) Hv) as [nd Hnd].
  eexists. split_and!.
  - unfold graph_insert_edge. rewrite (bind_Ok _ _ _ _ _ (load_run _ _ _ Hnd)).
    unfold store. rewrite bind_run, Hnd. reflexivity.
  - intros p. unfold valid. rewrite heap_lookup_update by done.
    case_decide; [subst; by rewrite Hnd | done].
  - intros p. unfold adj. rewrite heap_lookup_update by done.
    case_decide; [subst; by rewrite Hnd | done].
Qed.

(** C6.  [graph_insert_edge] puts the destination in front of the
    adjacency collection of the source; so after a run of insertions
    [graph_neighbours] of a node gives the destinations of the edges
    inserted from it, the last inserted first, followed by what the
    collection held before. *)
Theorem graph_neighbours_reverse_chronological g es : ∀ h n old,
  forallb (λ e, valid h e.1) es = true →
  graph_neighbours g n h = Ok old h →
  ∃ h', insert_edges g es h = Ok g h' ∧
        graph_neighbours g n h' = Ok (rev (dests_from n es) ++ old) h'.
Proof.
  induction es as [|[n1 n2] es IH]; intros h n old Hes Hold.
  - exists h. by split.
  - simpl in Hes. apply andb_true_iff in Hes as [Hv1 Hes].
    destruct (graph_insert_edge_run g h n1 n2 Hv1) as (h1 & Hrun & Hvalid & Hadj).
    assert (Hvn : valid h n = true).
    { unfold graph_neighbours, load in Hold. rewrite bind_run in Hold.
      unfold valid. by destruct (heap_lookup h n). }
    rewrite (graph_neighbours_run g h n Hvn) in Hold. injection Hold as <-.
    destruct (IH h1 n (adj h1 n)) as (h' & Hrun' & Hn).
    { clear -Hes Hvalid. induction es as [|e es IH]; [done|]. simpl in *.
      apply andb_true_iff in Hes as [? ?]. by rewrite Hvalid, IH, H. }
    { apply graph_neighbours_run. by rewrite Hvalid. }
    exists h'. split.
    + simpl. by rewrite (bind_Ok _ _ _ _ _ Hrun).
    + rewrite Hn, Hadj. simpl. destruct (Nat.eqb_spec n1 n) as [->|Hne].
      * rewrite decide_True by done. simpl. by rewrite <- app_assoc.
      * by rewrite decide_False by done.
Qed.

Lemma graph_neighbours_reverse_chronological_witness :
  ∃ h', insert_edges sample_graph [(3, 1); (1, 3); (3, 4); (3, 2)]%nat sample_heap
          = Ok sample_graph h' ∧
        graph_neighbours sample_graph 3%nat h' = Ok (rev [1; 4; 2]%nat ++ []) h'.
Proof.
  apply (graph_neighbours_reverse_chronological sample_graph
           [(3, 1); (1, 3); (3, 4); (3, 2)]%nat sample_heap 3%nat []);
    reflexivity.
Defined.

(** ** The loader *)

Example sscanf_ss_hyphen :
  sscanf_ss ("a-b c" ++ nl) = Some (Some "a-b", Some "c")%string.
Proof. reflexivity. Qed.

Example sscanf_ss_one_name : sscanf_ss ("a-b" ++ nl) = Some (Some "a-b"%string, None).
Proof. reflexivity. Qed.

Example sscanf_ss_long_name : sscanf_ss (long_name ++ " b" ++ nl) = None.
Proof. reflexivity. Qed.

Example validate_node_names_hyphen : validate_node_names "a-b" "c" = false.
Proof. reflexivity. Qed.

Example fopen_hyphen :
  fopen sample_fs "hyphen.txt"
  = Some ["# a graph" ++ nl; "2" ++ nl; "x y" ++ nl; "a-b c" ++ nl]%string.
Proof. reflexivity. Qed.

(** C5.  From the file with edge count 2 and the lines "A B" and "B C" the
    loader builds a graph of three nodes named A, B and C, with the edges
    A → B and B → C only; [find_path] from A to C returns true and from C
    to A false. *)
Theorem loader_abc_file :
  ∃ g h a b c,
    prepare_graph sample_fs ["is_connected"; "abc.txt"]%string [] [] = Ok g h ∧
    node_amount g = 3 ∧
    name_of h <$> stored_nodes g = ["B"; "C"; "A"]%string ∧
    graph_find_node g "A" h = Ok a h ∧
    graph_find_node g "B" h = Ok b h ∧
    graph_find_node g "C" h = Ok c h ∧
    adj h a = [b] ∧ adj h b = [c] ∧ adj h c = [] ∧
    ∀ fuel, (4 ≤ fuel)%nat →
      find_path fuel g a c h = Ok true h ∧ find_path fuel g c a h = Ok false h.
Proof.
  eexists _, _, 3%nat, 1%nat, 2%nat. split; [vm_compute; reflexivity|].
  split_and!; try reflexivity.
  intros fuel Hfuel. do 4 (destruct fuel as [|fuel]; [lia|]).
  split; reflexivity.
Qed.

Lemma bind_Ok_inv {A B} (m : M A) (f : A → M B) h b h' :
  (m ≫= f) h = Ok b h' → ∃ a h1, m h = Ok a h1 ∧ f a h1 = Ok b h'.
Proof. rewrite bind_run. destruct (m h); try done. eauto. Qed.

Lemma graph_insert_node_capacity g s h g' h' :
  graph_insert_node g s h = Ok g' h' → capacity g' = capacity g.
Proof.
  unfold graph_insert_node. intros (p & h1 & _ & H)%bind_Ok_inv.
  apply bind_Ok_inv in H as (a & h2 & Ha & H).
  apply bind_Ok_inv in H as (a' & h3 & Ha' & H).
  apply bind_Ok_inv in H as (n & h4 & _ & H).
  injection H as <- _. unfold the_array in Ha.
  unfold capacity. destruct (nodes g) as [a0|]; [|done]. injection Ha as -> _.
  unfold array_1d_set_value in Ha'.
  destruct (array_1d_slot a (node_amount g)); [|done].
  destruct (_ <? _)%nat; [|done]. by injection Ha' as <- _.
Qed.

Lemma graph_insert_edge_graph g n1 n2 h g' h' :
  graph_insert_edge g n1 n2 h = Ok g' h' → g' = g.
Proof.
  unfold graph_insert_edge. intros (nd & h1 & _ & H)%bind_Ok_inv.
  apply bind_Ok_inv in H as (u & h2 & _ & H). by injection H as <- _.
Qed.

Lemma find_or_insert_capacity g s p h g' p' h' :
  (if is_null p
   then g1 ← graph_insert_node g s; p1 ← graph_find_node g1 s; mret (g1, p1)
   else mret (g, p)) h = Ok (g', p') h' →
  capacity g' = capacity g.
Proof.
  destruct (is_null p).
  - intros (g1 & h1 & Hins & H)%bind_Ok_inv.
    apply bind_Ok_inv in H as (p1 & h2 & _ & H). injection H as <- _ _.
    by eapply graph_insert_node_capacity.
  - by intros [= <- _ _].
Qed.

Lemma create_graph_capacity l : ∀ g h g' h',
  create_graph g l h = Ok g' h' → capacity g' = capacity g.
Proof.
  induction l as [|edge l IH]; intros g h g' h' H; simpl in H.
  - by injection H as <- _.
  - apply bind_Ok_inv in H as (s & h1 & _ & H).
    apply bind_Ok_inv in H as ([g1 s1] & h2 & H1 & H).
    apply bind_Ok_inv in H as (d & h3 & _ & H).
    apply bind_Ok_inv in H as ([g2 d1] & h4 & H2 & H).
    apply bind_Ok_inv in H as (g3 & h5 & H3 & H).
    apply IH in H. apply graph_insert_edge_graph in H3 as ->.
    apply find_or_insert_capacity in H1, H2. congruence.
Qed.

Lemma int_mul_Ok a b h n h' : int_mul a b h = Ok n h' → n = a * b.
Proof. unfold int_mul. destruct (in_int _); [|done]. by intros [= <- _]. Qed.

(** Whenever the loader delivers a graph, it has read an edge-count line
    with a number E > 0 and has created the graph with capacity 4·E: the
    count is doubled in [get_number_of_edges] and again in
    [info_from_file]. *)
Lemma prepare_graph_capacity fs argv l h g h' :
  prepare_graph fs argv l h = Ok g h' →
  ∃ path fp E fp1,
    argv !! 1%nat = Some path ∧ fopen fs path = Some fp ∧
    get_number_of_edges_scan fp = (E, true, fp1) ∧ 0 < E ∧
    capacity g = Some (4 * E).
Proof.
  unfold prepare_graph. intros ([n l1] & h1 & Hinfo & Hcreate)%bind_Ok_inv.
  apply create_graph_capacity in Hcreate.
  unfold info_from_file in Hinfo.
  destruct (length argv <? 2)%nat eqn:Hargc; [done|].
  apply Nat.ltb_ge in Hargc.
  destruct (argv !! 1%nat) as [path|] eqn:Hpath.
  2:{ apply lookup_ge_None in Hpath. lia. }
  simpl in Hinfo. destruct (fopen fs path) as [fp|] eqn:Hfp; [|done].
  apply bind_Ok_inv in Hinfo as ([m fp2] & h2 & Hnum & Hinfo).
  destruct (m =? 0) eqn:Hm; [done|].
  apply bind_Ok_inv in Hinfo as (l2 & h3 & _ & Hinfo).
  apply bind_Ok_inv in Hinfo as (k & h4 & Hk%int_mul_Ok & Hinfo).
  injection Hinfo as <- _ _.
  unfold get_number_of_edges in Hnum.
  destruct (get_number_of_edges_scan fp) as [[E found] fp1] eqn:Hscan.
  destruct found; simpl in Hnum.
  2:{ injection Hnum as <- _ _. done. }
  destruct (0 <? E) eqn:HE.
  2:{ injection Hnum as <- _ _. done. }
  apply bind_Ok_inv in Hnum as (k' & h5 & Hk'%int_mul_Ok & Hnum).
  injection Hnum as <- _ _.
  exists path, fp, E, fp1. split_and!; try done; [lia|].
  rewrite Hcreate. unfold capacity. simpl. f_equal. unfold array_1d_high. simpl. lia.
Qed.

(** C4.  For the file that declares 2 edges the loader creates the graph
    with capacity 8, four times the declared number and not twice. *)
Theorem prepare_graph_capacity_abc :
  ∃ fp fp1 g h,
    fopen sample_fs "abc.txt" = Some fp ∧
    get_number_of_edges_scan fp = (2, true, fp1) ∧
    prepare_graph sample_fs ["is_connected"; "abc.txt"]%string [] [] = Ok g h ∧
    capacity g = Some 8.
Proof.
  exists ["2" ++ nl; "A B" ++ nl; "B C" ++ nl]%string, ["A B" ++ nl; "B C" ++ nl]%string.
  do 2 eexists. split_and!.
  - vm_compute; reflexivity.
  - vm_compute; reflexivity.
  - vm_compute; reflexivity.
  - reflexivity.
Qed.

(** The first loop of [validate_node_names] decides without [dest]. *)
Lemma validate_node_names_first_loop src dest :
  string_forall isalnum src = false → validate_node_names src dest = false.
Proof. unfold validate_node_names. by intros ->. Qed.

(** After [sscanf] both names are within their buffers, and the two
    length checks of [validate_node_names] cannot fail: the characters
    alone decide. *)
Lemma validate_node_names_after_sscanf line s d :
  sscanf_ss line = Some (Some s, Some d) →
  validate_node_names s d = string_forall isalnum s && string_forall isalnum d.
Proof.
  unfold sscanf_ss. destruct (scan_string line) as [[tok1|] rest]; [|done].
  destruct (fits_buffer tok1) eqn:H1; [|done].
  destruct (scan_string rest).1 as [tok2|]; [|done].
  destruct (fits_buffer tok2) eqn:H2; [|done].
  intros [= <- <-]. unfold fits_buffer, MAX_NODE_CHAR_LENGTH in *.
  apply Nat.ltb_lt in H1, H2.
  unfold validate_node_names, MAX_NODE_NAME_LENGTH.
  destruct (string_forall isalnum tok1); [|done].
  destruct (string_forall isalnum tok2); [|done]. simpl.
  destruct (40 <? String.length tok1)%nat eqn:E1; [apply Nat.ltb_lt in E1; lia|].
  destruct (40 <? String.length tok2)%nat eqn:E2; [apply Nat.ltb_lt in E2; lia|].
  done.
Qed.

Lemma add_edges_to_list_from_bad_name line fp l pos h :
  is_edge_line line = true → has_bad_name line = true →
  add_edges_to_list_from (line :: fp) l pos h = Exit EXIT_FAILURE h.
Proof.
  intros Hline Hbad. simpl. fold (is_edge_line line). rewrite Hline.
  unfold has_bad_name in Hbad.
  destruct (sscanf_ss line) as [[[s|] [d|]]|]; try done.
  - destruct (string_forall isalnum s) eqn:Hs; simpl in Hbad.
    + unfold validate_node_names. rewrite Hs. simpl.
      by destruct (string_forall isalnum d).
    + by rewrite validate_node_names_first_loop.
  - by destruct (string_forall isalnum s).
Qed.

Lemma add_edges_to_list_from_exit pre : ∀ line post l pos h,
  forallb has_two_names (List.filter is_edge_line pre) = true →
  is_edge_line line = true → has_bad_name line = true →
  add_edges_to_list_from (pre ++ line :: post) l pos h = Exit EXIT_FAILURE h.
Proof.
  induction pre as [|ln pre IH]; intros line post l pos h Htwo Hline Hbad.
  { by apply add_edges_to_list_from_bad_name. }
  simpl in *. fold (is_edge_line ln) in *.
  destruct (is_edge_line ln); simpl in *; [|by apply IH].
  apply andb_true_iff in Htwo as [Htwo1 Htwo].
  unfold has_two_names in Htwo1.
  destruct (sscanf_ss ln) as [[[s|] [d|]]|]; try done.
  destruct (validate_node_names s d); [|done].
  unfold list_insert. by apply IH.
Qed.

(** C7.  When an edge line of the file (a line after the edge-count line
    that is neither a comment nor empty) carries a name with a character
    that is not alphanumeric, alone or with a second name, the loader ends
    the process with EXIT_FAILURE before any graph is created: the heap of
    node records is untouched.  Nothing is asked of the lines after that
    line, which are never read.  (The names on the line are taken to stay
    within their buffers of 41 bytes, the edge lines before it to carry
    two such names each, and the edge count to fit an int when doubled;
    otherwise the C code runs into undefined behaviour before it can
    fail.) *)
Theorem loader_rejects_non_alphanumeric_name fs argv path fp E found pre line post l h :
  argv !! 1%nat = Some path → fopen fs path = Some fp →
  get_number_of_edges_scan fp = (E, found, pre ++ line :: post) →
  E * 2 ≤ INT_MAX →
  forallb has_two_names (List.filter is_edge_line pre) = true →
  is_edge_line line = true → has_bad_name line = true →
  prepare_graph fs argv l h = Exit EXIT_FAILURE h.
Proof.
  intros Hpath Hfp Hscan HE Htwo Hline Hbad.
  unfold prepare_graph, info_from_file. rewrite bind_run.
  pose proof (lookup_lt_Some _ _ _ Hpath) as Hargc.
  destruct (length argv <? 2)%nat eqn:E1; [apply Nat.ltb_lt in E1; lia|].
  rewrite Hpath. simpl. rewrite Hfp, bind_run.
  unfold get_number_of_edges. rewrite Hscan.
  destruct (found && (0 <? E)) eqn:E2; [|done].
  apply andb_true_iff in E2 as [_ HE0%Z.ltb_lt].
  unfold int_mul, in_int, INT_MIN. rewrite bind_run.
  destruct ((- 2 ^ 31 <=? E * 2) && (E * 2 <=? INT_MAX)) eqn:E3.
  2:{ apply andb_false_iff in E3 as [E3|E3]; lia. }
  rewrite ret_run, ret_run. destruct (E * 2 =? 0) eqn:E4; [done|].
  rewrite bind_run. unfold add_edges_to_list.
  by rewrite (add_edges_to_list_from_exit pre line post l _ h Htwo Hline Hbad).
Qed.

Lemma loader_rejects_non_alphanumeric_name_witness :
  prepare_graph lone_name_fs ["is_connected"; "lone.txt"]%string [] sample_heap
  = Exit EXIT_FAILURE sample_heap.
Proof.
  apply (loader_rejects_non_alphanumeric_name lone_name_fs
           ["is_connected"; "lone.txt"]%string "lone.txt"
           ["2" ++ nl; "x y" ++ nl; "a-b" ++ nl; "z" ++ nl]%string
           2 true ["x y" ++ nl]%string ("a-b" ++ nl)%string ["z" ++ nl]%string
           [] sample_heap).
  - reflexivity.
  - vm_compute; reflexivity.
  - vm_compute; reflexivity.
  - vm_compute; discriminate.
  - vm_compute; reflexivity.
  - vm_compute; reflexivity.
  - vm_compute; reflexivity.
Defined.

(** The file with the two names a-b and c on its second edge line, the
    file with a name of 41 characters, and a file with a single
    alphanumeric name on its edge line. *)
Example prepare_graph_hyphen :
  prepare_graph sample_fs ["is_connected"; "hyphen.txt"]%string [] []
  = Exit EXIT_FAILURE [].
Proof. vm_compute; reflexivity. Qed.

Example prepare_graph_long_name :
  prepare_graph long_name_fs ["is_connected"; "long.txt"]%string [] [] = Undefined.
Proof. vm_compute; reflexivity. Qed.

Example add_edges_to_list_one_good_name :
  add_edges_to_list ["z" ++ nl]%string [] [] = Undefined.
Proof. reflexivity. Qed.

(** ** The loader builds graphs in the state between two queries *)

Lemma graph_wf_iff h g :
  graph_wf h g = true ↔ (∃ a, nodes g = Some a) ∧ closed (stored_nodes g) h.
Proof.
  split.
  - intros Hwf. split; [by eapply graph_wf_array | by apply graph_wf_closed].
  - intros [[a Ea] HC]. unfold graph_wf. rewrite Ea. apply forallb_forall.
    intros p Hp%list_elem_of_In. destruct (HC p Hp) as [Hv Ha].
    rewrite Hv. simpl. apply forallb_forall. intros n Hn%list_elem_of_In.
    apply is_stored_elem. auto.
Qed.

Lemma graph_ok_iff h g :
  graph_ok h g = true ↔
  (∃ a, nodes g = Some a) ∧ closed (stored_nodes g) h ∧
  NoDup (name_of h <$> stored_nodes g) ∧
  (∀ p, p ∈ stored_nodes g → is_seen h p = false) ∧ 0 ≤ node_amount g.
Proof.
  unfold graph_ok. rewrite !andb_true_iff, graph_wf_iff, all_unseen_spec.
  unfold names_unique. rewrite bool_decide_eq_true, Z.leb_le. tauto.
Qed.

Lemma graph_ok_wf h g : graph_ok h g = true → graph_wf h g = true.
Proof. unfold graph_ok. rewrite !andb_true_iff. tauto. Qed.

Lemma graph_ok_empty h max_nodes : graph_ok h (graph_empty max_nodes) = true.
Proof. reflexivity. Qed.

Lemma load_valid h p :
  valid h p = true → ∃ nd, load p h = Ok nd h ∧ name nd = name_of h p.
Proof.
  intros [nd Hnd]%valid_lookup. exists nd. split; [by apply load_run|].
  unfold name_of. by rewrite Hnd.
Qed.

Lemma graph_find_node_from_spec g a s h idx :
  nodes g = Some a → closed (stored_nodes g) h →
  (∀ i, i ∈ idx → slot_value a i ∈ stored_nodes g) →
  ∃ p, graph_find_node_from g s idx h = Ok p h ∧
       ((p = NULL ∧ ∀ i, i ∈ idx → name_of h (slot_value a i) ≠ s) ∨
        (p ∈ stored_nodes g ∧ name_of h p = s)).
Proof.
  intros Ea HC. induction idx as [|i idx IH]; intros Hidx.
  - exists NULL. split; [done|]. left. split; [done|]. intros; in_nil.
  - assert (Hp : slot_value a i ∈ stored_nodes g) by (apply Hidx; left).
    destruct (HC _ Hp) as [Hv _].
    destruct (load_valid _ _ Hv) as (nd & Hload & Hname).
    simpl. unfold the_array. rewrite Ea, bind_run, ret_run.
    rewrite (bind_Ok _ _ _ _ _
               (array_1d_inspect_value_run a i h (valid_not_null _ _ Hv))).
    rewrite (bind_Ok _ _ _ _ _ Hload), Hname.
    destruct (String.eqb_spec (name_of h (slot_value a i)) s) as [Heq|Hne].
    + exists (slot_value a i). split; [done|]. by right.
    + destruct IH as (p & -> & [[-> Hall]|Hfound]).
      { intros; apply Hidx; by right. }
      * exists NULL. split; [done|]. left. split; [done|].
        intros j [->|Hj]%elem_of_cons; auto.
      * exists p. split; [done|]. by right.
Qed.

Lemma graph_find_node_spec g s h :
  graph_wf h g = true →
  ∃ p, graph_find_node g s h = Ok p h ∧
       ((p = NULL ∧ ∀ q, q ∈ stored_nodes g → name_of h q ≠ s) ∨
        (p ∈ stored_nodes g ∧ name_of h p = s)).
Proof.
  intros [[a Ea] HC]%graph_wf_iff.
  assert (Hst : stored_nodes g = slot_value a <$> seqZ 0 (node_amount g)).
  { unfold stored_nodes. by rewrite Ea. }
  destruct (graph_find_node_from_spec g a s h (seqZ 0 (node_amount g)) Ea HC)
    as (p & Hrun & Hp).
  { intros i Hi. rewrite Hst. by apply list_elem_of_fmap_2. }
  exists p. split; [done|]. destruct Hp as [[-> Hall]|?]; [left|by right].
  split; [done|]. intros q Hq. rewrite Hst in Hq.
  apply list_elem_of_fmap in Hq as (i & -> & Hi). by apply Hall.
Qed.

Lemma heap_lookup_alloc h nd q :
  heap_lookup (h ++ [nd]) q =
  if decide (q = S (length h)) then Some nd else heap_lookup h q.
Proof.
  destruct (decide (q = S (length h))) as [->|Hq].
  - simpl. by apply list_lookup_middle.
  - destruct q as [|i]; [done|]. simpl.
    destruct (decide (i < length h)%nat) as [Hlt|Hge].
    + by apply lookup_app_l.
    + rewrite (proj2 (lookup_ge_None h i)) by lia.
      apply lookup_ge_None. rewrite length_app. simpl. lia.
Qed.

Lemma heap_lookup_fresh h : heap_lookup h (S (length h)) = None.
Proof. simpl. by apply lookup_ge_None. Qed.

Lemma slot_value_set a k p n i :
  array_1d_slot a n = Some k → (k < length (values a))%nat →
  slot_value {| low := low a; high := high a; values := <[k:=p]> (values a) |} i
  = if decide (i = n) then p else slot_value a i.
Proof.
  unfold slot_value, array_1d_slot. simpl. intros Hn Hk.
  destruct ((low a <=? n) && (n <=? high a)) eqn:En; [|done].
  injection Hn as <-. apply andb_true_iff in En as [Hn1 Hn2].
  apply Z.leb_le in Hn1, Hn2.
  case_decide as Hi.
  - subst i. destruct ((low a <=? n) && (n <=? high a)) eqn:En'.
    + by rewrite list_lookup_insert_eq.
    + apply andb_false_iff in En' as [Hf|Hf]; apply Z.leb_gt in Hf; lia.
  - destruct ((low a <=? i) && (i <=? high a)) eqn:Ei; [|done].
    apply andb_true_iff in Ei as [Hi1 Hi2]. apply Z.leb_le in Hi1, Hi2.
    rewrite list_lookup_insert_ne by lia. done.
Qed.

(** What [graph_insert_node] does when it returns: the new record is at
    the end of the heap and its address in the next slot of the array. *)
Lemma graph_insert_node_inv g s h g' h' :
  0 ≤ node_amount g → graph_insert_node g s h = Ok g' h' →
  h' = h ++ [{| name := s; seen := false; adjacent_nodes := dlist_empty |}] ∧
  (∃ a', nodes g' = Some a') ∧
  node_amount g' = node_amount g + 1 ∧
  stored_nodes g' = stored_nodes g ++ [S (length h)].
Proof.
  intros Hn. unfold graph_insert_node. intros (p & h1 & Hp & H)%bind_Ok_inv.
  unfold malloc_node in Hp. injection Hp as <- <-.
  apply bind_Ok_inv in H as (a & h2 & Ha & H).
  unfold the_array in Ha. destruct (nodes g) as [a0|] eqn:Ea; [|done].
  injection Ha as -> <-.
  apply bind_Ok_inv in H as (a' & h3 & Ha' & H).
  unfold array_1d_set_value in Ha'.
  destruct (array_1d_slot a (node_amount g)) as [k|] eqn:Ek; [|done].
  destruct (k <? length (values a))%nat eqn:Hk; [|done].
  apply Nat.ltb_lt in Hk. injection Ha' as <- <-.
  apply bind_Ok_inv in H as (n & h4 & Hadd & H).
  unfold int_add in Hadd. destruct (in_int _); [|done]. injection Hadd as <- <-.
  injection H as <- <-. split_and!; [done|by eexists|done|].
  unfold stored_nodes. rewrite Ea. simpl.
  rewrite seqZ_app by lia. rewrite fmap_app. f_equal.
  - apply list_fmap_ext. intros j i Hi%list_elem_of_lookup_2.
    apply elem_of_seqZ in Hi. rewrite (slot_value_set a k _ _ i Ek Hk).
    case_decide; [lia|done].
  - change (seqZ (0 + node_amount g) 1) with [0 + (0 + node_amount g)].
    simpl. rewrite (slot_value_set a k _ _ _ Ek Hk).
    case_decide; [done|lia].
Qed.

Lemma graph_insert_node_ok g s h g' h' :
  graph_ok h g = true → (∀ q, q ∈ stored_nodes g → name_of h q ≠ s) →
  graph_insert_node g s h = Ok g' h' →
  graph_ok h' g' = true ∧
  (∀ q, q ∈ stored_nodes g → q ∈ stored_nodes g') ∧
  ∃ p, p ∈ stored_nodes g' ∧ name_of h' p = s.
Proof.
  intros (_ & HC & Hnd & Hun & Hn)%graph_ok_iff Hnew Hrun.
  destruct (graph_insert_node_inv g s h g' h' Hn Hrun) as (-> & Ha' & Hn' & Hst).
  set (nd := {| name := s; seen := false; adjacent_nodes := dlist_empty |}) in *.
  assert (Hold : ∀ q, q ∈ stored_nodes g →
                      heap_lookup (h ++ [nd]) q = heap_lookup h q).
  { intros q Hq. rewrite heap_lookup_alloc. case_decide as E; [|done].
    destruct (HC q Hq) as [Hv _]. unfold valid in Hv.
    rewrite E, heap_lookup_fresh in Hv. done. }
  assert (Hnew' : heap_lookup (h ++ [nd]) (S (length h)) = Some nd).
  { rewrite heap_lookup_alloc. by case_decide. }
  split_and!.
  - apply graph_ok_iff. rewrite Hst. split_and!; [done| | | |lia].
    + intros q [Hq| ->%list_elem_of_singleton]%elem_of_app.
      * destruct (HC q Hq) as [Hv Hadj]. unfold valid, adj in *.
        rewrite (Hold q Hq). split; [done|].
        intros n Hin. apply elem_of_app. left. by apply Hadj.
      * unfold valid, adj. rewrite Hnew'. split; [done|]. unfold nd, dlist_empty. simpl.
        intros; in_nil.
    + rewrite fmap_app. apply NoDup_app. split_and!.
      * erewrite list_fmap_ext; [exact Hnd|].
        intros i q Hq%list_elem_of_lookup_2. unfold name_of. by rewrite (Hold q Hq).
      * intros x (q & -> & Hq)%list_elem_of_fmap Hx%list_elem_of_singleton.
        apply (Hnew q Hq). unfold name_of in *. rewrite (Hold q Hq) in Hx.
        rewrite Hnew' in Hx. done.
      * apply NoDup_singleton.
    + intros q [Hq| ->%list_elem_of_singleton]%elem_of_app.
      * unfold is_seen. rewrite (Hold q Hq). by apply Hun.
      * unfold is_seen. by rewrite Hnew'.
  - intros q Hq. rewrite Hst. apply elem_of_app. by left.
  - exists (S (length h)). rewrite Hst. split.
    + apply elem_of_app. right. by apply list_elem_of_singleton.
    + unfold name_of. by rewrite Hnew'.
Qed.

Lemma graph_insert_edge_ok g h n1 n2 :
  graph_ok h g = true → n1 ∈ stored_nodes g → n2 ∈ stored_nodes g →
  ∃ h1, graph_insert_edge g n1 n2 h = Ok g h1 ∧ graph_ok h1 g = true.
Proof.
  intros (Ha & HC & Hnd & Hun & Hn)%graph_ok_iff H1 H2.
  destruct (HC n1 H1) as [Hv1 _].
  destruct (proj1 (valid_lookup _ _) Hv1) as [nd Hnd1].
  set (nd' := {| name := name nd; seen := seen nd;
                 adjacent_nodes := (dlist_insert (adjacent_nodes nd) n2
                                      (dlist_first (adjacent_nodes nd))).1 |}).
  assert (Hlk : ∀ q, heap_lookup (heap_update h n1 nd') q
                     = if decide (q = n1) then Some nd' else heap_lookup h q).
  { intros q. by apply heap_lookup_update. }
  exists (heap_update h n1 nd'). split.
  - unfold graph_insert_edge. rewrite (bind_Ok _ _ _ _ _ (load_run _ _ _ Hnd1)).
    unfold store. rewrite bind_run, Hnd1. reflexivity.
  - apply graph_ok_iff. split_and!; [done| | | |done].
    + intros q Hq. destruct (HC q Hq) as [Hv Hadj]. unfold valid, adj in *.
      rewrite Hlk. case_decide as E; [|done]. subst q. split; [done|].
      rewrite Hnd1 in Hadj. simpl. intros n [->|Hin]%elem_of_cons; auto.
    + erewrite list_fmap_ext; [exact Hnd|].
      intros i q _. unfold name_of. rewrite Hlk.
      case_decide as E; [|done]. subst q. by rewrite Hnd1.
    + intros q Hq. specialize (Hun q Hq). unfold is_seen in *. rewrite Hlk.
      case_decide as E; [|done]. subst q. by rewrite Hnd1 in Hun.
Qed.

(** The find-or-insert step of [create_graph]. *)
Lemma find_or_insert_ok g nm h p0 h0 g1 p1 h1 :
  graph_ok h g = true →
  graph_find_node g nm h = Ok p0 h0 →
  (if is_null p0
   then g' ← graph_insert_node g nm; p' ← graph_find_node g' nm; mret (g', p')
   else mret (g, p0)) h0 = Ok (g1, p1) h1 →
  graph_ok h1 g1 = true ∧ p1 ∈ stored_nodes g1 ∧
  (∀ q, q ∈ stored_nodes g → q ∈ stored_nodes g1).
Proof.
  intros Hok Hfind Hstep.
  pose proof (graph_ok_wf _ _ Hok) as Hwf'.
  destruct (graph_find_node_spec g nm h Hwf') as (p & Hrun & Hp).
  rewrite Hrun in Hfind. injection Hfind as <- <-.
  destruct Hp as [[-> Hall]|[Hp Hname]].
  - simpl in Hstep.
    apply bind_Ok_inv in Hstep as (g' & h' & Hins & Hstep).
    apply bind_Ok_inv in Hstep as (p' & h'' & Hfind' & Hstep).
    injection Hstep as <- <- <-.
    destruct (graph_insert_node_ok g nm h g' h' Hok Hall Hins)
      as (Hok' & Hmono & q & Hq & Hqn).
    pose proof (graph_ok_wf _ _ Hok') as Hwf1.
    destruct (graph_find_node_spec g' nm h' Hwf1) as (p1 & Hrun1 & Hp1).
    rewrite Hrun1 in Hfind'. injection Hfind' as <- <-.
    destruct Hp1 as [[-> Hnone]|[Hp1 _]]; [by destruct (Hnone q Hq)|done].
  - destruct (graph_wf_closed _ _ Hwf' p Hp) as [Hv _].
    rewrite (valid_not_null _ _ Hv) in Hstep. injection Hstep as <- <- <-.
    done.
Qed.

Lemma create_graph_ok l : ∀ g h g' h',
  graph_ok h g = true → create_graph g l h = Ok g' h' → graph_ok h' g' = true.
Proof.
  induction l as [|edge l IH]; intros g h g' h' Hok H; simpl in H.
  - by injection H as <- <-.
  - apply bind_Ok_inv in H as (s0 & h1 & Hfs & H).
    apply bind_Ok_inv in H as ([g1 s1] & h2 & Hs & H).
    destruct (find_or_insert_ok _ _ _ _ _ _ _ _ Hok Hfs Hs) as (Hok1 & Hs1 & _).
    apply bind_Ok_inv in H as (d0 & h3 & Hfd & H).
    apply bind_Ok_inv in H as ([g2 d1] & h4 & Hd & H).
    destruct (find_or_insert_ok _ _ _ _ _ _ _ _ Hok1 Hfd Hd) as (Hok2 & Hd1 & Hmono).
    apply bind_Ok_inv in H as (g3 & h5 & He & H).
    destruct (graph_insert_edge_ok g2 h4 s1 d1 Hok2 (Hmono _ Hs1) Hd1)
      as (h5' & Hrun & Hok3).
    rewrite Hrun in He. injection He as <- <-.
    by eapply IH.
Qed.

(** Every graph the loader delivers is in the state that the theorems on
    [find_path] ask for. *)
Lemma prepare_graph_ok fs argv l h g h' :
  prepare_graph fs argv l h = Ok g h' →
  graph_wf h' g = true ∧ names_unique h' g = true ∧ all_unseen h' g = true.
Proof.
  unfold prepare_graph. intros ([n l1] & h1 & _ & Hcreate)%bind_Ok_inv.
  apply create_graph_ok in Hcreate; [|apply graph_ok_empty].
  unfold graph_ok in Hcreate. rewrite !andb_true_iff in Hcreate. tauto.
Qed.

(** The query of the program, from the names typed in to the answer: on
    the graph loaded from a file, for the names of two different nodes,
    the answer is true exactly when a directed walk leads from the one to
    the other. *)
Lemma loaded_graph_query fs argv l h0 g h x y a b fuel :
  prepare_graph fs argv l h0 = Ok g h →
  graph_find_node g x h = Ok a h → graph_find_node g y h = Ok b h →
  is_null a = false → is_null b = false → x ≠ y →
  (Z.to_nat (node_amount g) < fuel)%nat →
  ∃ r, find_path fuel g a b h = Ok r h ∧ (r = true ↔ directed_walk h a b).
Proof.
  intros (Hwf & Huniq & Hclean)%prepare_graph_ok Ha Hb Hna Hnb Hxy Hfuel.
  destruct (graph_find_node_spec g x h Hwf) as (a' & Ha' & Hsa).
  destruct (graph_find_node_spec g y h Hwf) as (b' & Hb' & Hsb).
  rewrite Ha' in Ha. injection Ha as ->. rewrite Hb' in Hb. injection Hb as ->.
  destruct Hsa as [[-> _]|[Hsa Hxa]]; [done|].
  destruct Hsb as [[-> _]|[Hsb Hyb]]; [done|].
  destruct (find_path_total h g a b fuel Hwf Hsa Hsb Hfuel) as (r & h' & Hrun & He & Hu).
  pose proof (evolves_unseen_eq h h' g He Hclean Hu) as ->.
  exists r. split; [done|].
  destruct (find_path_iff_nonempty_walk h g a b fuel Hwf Huniq Hclean) as (r' & h'' & Hrun' & Hr);
    [by apply is_stored_elem..|done|].
  rewrite Hrun in Hrun'. injection Hrun' as <- <-.
  rewrite Hr. unfold directed_walk, nonempty_walk. rewrite rtc_tc.
  split; [by right|]. intros [->|?]; [|done]. congruence.
Qed.

(** * More of graph.c *)

(** ** graph_find_node *)

Lemma graph_find_node_from_first g a s h idx :
  nodes g = Some a → closed (stored_nodes g) h →
  (∀ i, i ∈ idx → slot_value a i ∈ stored_nodes g) →
  ∃ p, graph_find_node_from g s idx h = Ok p h ∧
       ((p = NULL ∧ ∀ i, i ∈ idx → name_of h (slot_value a i) ≠ s) ∨
        (∃ k, (slot_value a <$> idx) !! k = Some p ∧ name_of h p = s ∧
              ∀ j q, (j < k)%nat → (slot_value a <$> idx) !! j = Some q →
                     name_of h q ≠ s)).
Proof.
  intros Ea HC. induction idx as [|i idx IH]; intros Hidx.
  - exists NULL. split; [done|]. left. split; [done|]. intros; in_nil.
  - assert (Hp : slot_value a i ∈ stored_nodes g) by (apply Hidx; left).
    destruct (HC _ Hp) as [Hv _].
    destruct (load_valid _ _ Hv) as (nd & Hload & Hname).
    simpl. unfold the_array. rewrite Ea, bind_run, ret_run.
    rewrite (bind_Ok _ _ _ _ _
               (array_1d_inspect_value_run a i h (valid_not_null _ _ Hv))).
    rewrite (bind_Ok _ _ _ _ _ Hload), Hname.
    destruct (String.eqb_spec (name_of h (slot_value a i)) s) as [Heq|Hne].
    + exists (slot_value a i). split; [done|]. right. exists 0%nat.
      split_and!; [done|done|]. intros j q Hj. lia.
    + destruct IH as (p & -> & [[-> Hall]|(k & Hk & Hnm & Hbefore)]).
      { intros; apply Hidx; by right. }
      * exists NULL. split; [done|]. left. split; [done|].
        intros j [->|Hj]%elem_of_cons; auto.
      * exists p. split; [done|]. right. exists (S k). split_and!; [done|done|].
        intros [|j] q Hj Hq; simpl in Hq.
        -- by injection Hq as <-.
        -- apply (Hbefore j q); [lia|done].
Qed.

(** X1.  On a well-formed graph [graph_find_node] returns without touching
    the heap; it returns NULL exactly when no stored node carries the name,
    and otherwise the stored node of the lowest slot that carries it. *)
Theorem graph_find_node_first_match g s h :
  graph_wf h g = true →
  ∃ p, graph_find_node g s h = Ok p h ∧
       (is_null p = true ↔ ¬ has_name h g s) ∧
       (is_null p = false →
        ∃ k, stored_nodes g !! k = Some p ∧ name_of h p = s ∧
             ∀ j q, (j < k)%nat → stored_nodes g !! j = Some q → name_of h q ≠ s).
Proof.
  intros Hwf. pose proof Hwf as [[a Ea] HC]%graph_wf_iff.
  assert (Hst : stored_nodes g = slot_value a <$> seqZ 0 (node_amount g)).
  { unfold stored_nodes. by rewrite Ea. }
  destruct (graph_find_node_from_first g a s h (seqZ 0 (node_amount g)) Ea HC)
    as (p & Hrun & Hp).
  { intros i Hi. rewrite Hst. by apply list_elem_of_fmap_2. }
  exists p. split; [done|]. rewrite <- Hst in Hp.
  destruct Hp as [[-> Hall]|(k & Hk & Hnm & Hbefore)].
  - split; [|done]. split; [|done]. intros _ (q & Hq & Hqn).
    rewrite Hst in Hq. apply list_elem_of_fmap in Hq as (i & -> & Hi).
    by apply (Hall i Hi).
  - assert (Hin : p ∈ stored_nodes g) by by eapply list_elem_of_lookup_2.
    destruct (HC p Hin) as [Hv _]. pose proof (valid_not_null _ _ Hv) as Hnn.
    split.
    + rewrite Hnn. split; [done|]. intros Hno. exfalso. apply Hno. by exists p.
    + intros _. by exists k.
Qed.

Lemma graph_find_node_first_match_witness :
  ∃ p, graph_find_node sample_graph "C" sample_heap = Ok p sample_heap ∧
       (is_null p = true ↔ ¬ has_name sample_heap sample_graph "C") ∧
       (is_null p = false →
        ∃ k, stored_nodes sample_graph !! k = Some p ∧ name_of sample_heap p = "C"%string ∧
             ∀ j q, (j < k)%nat → stored_nodes sample_graph !! j = Some q →
                    name_of sample_heap q ≠ "C"%string).
Proof. apply (graph_find_node_first_match sample_graph "C" sample_heap). reflexivity. Defined.

(** ** graph_has_edges *)

Lemma graph_has_edges_from_spec g a h idx :
  nodes g = Some a → closed (stored_nodes g) h →
  (∀ i, i ∈ idx → slot_value a i ∈ stored_nodes g) →
  ∃ b, graph_has_edges_from g idx h = Ok b h ∧
       (b = true ↔ ∃ i, i ∈ idx ∧ adj h (slot_value a i) ≠ []).
Proof.
  intros Ea HC. induction idx as [|i idx IH]; intros Hidx.
  - exists false. split; [done|]. split; [done|]. intros (i & Hi & _). in_nil.
  - assert (Hp : slot_value a i ∈ stored_nodes g) by (apply Hidx; left).
    destruct (HC _ Hp) as [Hv _].
    destruct (proj1 (valid_lookup _ _) Hv) as [nd Hnd].
    simpl. unfold the_array. rewrite Ea, bind_run, ret_run.
    rewrite (bind_Ok _ _ _ _ _
               (array_1d_inspect_value_run a i h (valid_not_null _ _ Hv))).
    rewrite (bind_Ok _ _ _ _ _ (load_run _ _ _ Hnd)).
    assert (Hadj : adj h (slot_value a i) = adjacent_nodes nd).
    { unfold adj. by rewrite Hnd. }
    destruct (adjacent_nodes nd) as [|x l] eqn:El; simpl.
    + destruct IH as (b & -> & Hb). { intros; apply Hidx; by right. }
      exists b. split; [done|]. rewrite Hb. split.
      * intros (j & Hj & Hne). exists j. split; [by right|done].
      * intros (j & [->|Hj]%elem_of_cons & Hne); [by rewrite Hadj in Hne|eauto].
    + exists true. split; [done|]. split; [|done]. intros _.
      exists i. split; [left|]. by rewrite Hadj.
Qed.

(** X2.  On a well-formed graph [graph_has_edges] returns true exactly
    when some stored node has a non-empty adjacency collection; the heap
    is not touched. *)
Theorem graph_has_edges_iff g h :
  graph_wf h g = true →
  ∃ b, graph_has_edges g h = Ok b h ∧
       (b = true ↔ ∃ p, p ∈ stored_nodes g ∧ adj h p ≠ []).
Proof.
  intros [[a Ea] HC]%graph_wf_iff.
  assert (Hst : stored_nodes g = slot_value a <$> seqZ 0 (node_amount g)).
  { unfold stored_nodes. by rewrite Ea. }
  destruct (graph_has_edges_from_spec g a h (seqZ 0 (node_amount g)) Ea HC)
    as (b & Hrun & Hb).
  { intros i Hi. rewrite Hst. by apply list_elem_of_fmap_2. }
  exists b. split; [done|]. rewrite Hb. split.
  - intros (i & Hi & Hne). exists (slot_value a i). split; [|done].
    rewrite Hst. by apply list_elem_of_fmap_2.
  - intros (p & Hp & Hne). rewrite Hst in Hp.
    apply list_elem_of_fmap in Hp as (i & -> & Hi). eauto.
Qed.

Lemma graph_has_edges_iff_witness :
  ∃ b, graph_has_edges sample_graph sample_heap = Ok b sample_heap ∧
       (b = true ↔ ∃ p, p ∈ stored_nodes sample_graph ∧ adj sample_heap p ≠ []).
Proof. apply (graph_has_edges_iff sample_graph sample_heap). reflexivity. Defined.

Example graph_has_edges_fresh h : graph_has_edges (graph_empty 5) h = Ok false h.
Proof. reflexivity. Qed.

(** ** The seen flag *)

(** X3.  [graph_node_set_seen] followed by [graph_node_is_seen] gives the
    value set; the names, the adjacency collections and the flags of the
    other nodes stay as they are. *)
Theorem graph_node_set_seen_is_seen g h n s :
  valid h n = true →
  ∃ h', graph_node_set_seen g n s h = Ok g h' ∧
        graph_node_is_seen g n h' = Ok s h' ∧
        (∀ p, p ≠ n → heap_lookup h' p = heap_lookup h p) ∧
        (∀ p, name_of h' p = name_of h p ∧ adj h' p = adj h p).
Proof.
  intros Hv. exists (mark s h n). split_and!.
  - by apply graph_node_set_seen_run.
  - rewrite graph_node_is_seen_run by by rewrite valid_mark.
    rewrite is_seen_mark by done. by rewrite decide_True.
  - intros p Hp. rewrite heap_lookup_mark. by rewrite decide_False.
  - intros p. by rewrite name_of_mark, adj_mark.
Qed.

Lemma graph_node_set_seen_is_seen_witness :
  ∃ h', graph_node_set_seen sample_graph 2%nat true sample_heap = Ok sample_graph h' ∧
        graph_node_is_seen sample_graph 2%nat h' = Ok true h' ∧
        (∀ p, p ≠ 2%nat → heap_lookup h' p = heap_lookup sample_heap p) ∧
        (∀ p, name_of h' p = name_of sample_heap p ∧ adj h' p = adj sample_heap p).
Proof. apply (graph_node_set_seen_is_seen sample_graph sample_heap 2%nat true). reflexivity. Defined.

Lemma evolves_lookup_outside V h h' p :
  evolves V h h' → p ∉ V → heap_lookup h' p = heap_lookup h p.
Proof.
  intros He Hp. pose proof (evolves_lookup _ _ _ p He) as Hshape.
  destruct He as [_ Hframe]. specialize (Hframe p Hp). unfold is_seen in Hframe.
  destruct (heap_lookup h p) as [[n1 s1 a1]|], (heap_lookup h' p) as [[n2 s2 a2]|];
    simpl in *; try done.
  injection Hshape as -> ->. by subst.
Qed.

(** X4.  [graph_reset_seen] on a well-formed graph clears the flag of every
    stored node, whatever the flags were, and changes nothing else: names
    and adjacency collections are kept, and a record that is not stored in
    the graph keeps its flag too. *)
Theorem graph_reset_seen_clears_stored h g :
  graph_wf h g = true →
  ∃ h', graph_reset_seen g h = Ok g h' ∧
        (∀ p, p ∈ stored_nodes g → is_seen h' p = false) ∧
        (∀ p, name_of h' p = name_of h p ∧ adj h' p = adj h p) ∧
        (∀ p, p ∉ stored_nodes g → heap_lookup h' p = heap_lookup h p).
Proof.
  intros Hwf. destruct (graph_reset_seen_spec h g Hwf) as (h' & Hrun & He & Hu).
  exists h'. split_and!; [done| | |].
  - by apply all_unseen_spec.
  - intros p. by rewrite (evolves_name_of _ _ _ _ He), (evolves_adj _ _ _ _ He).
  - intros p Hp. by eapply evolves_lookup_outside.
Qed.

Lemma graph_reset_seen_clears_stored_witness :
  ∃ h', graph_reset_seen sample_graph (mark true sample_heap 2%nat) = Ok sample_graph h' ∧
        (∀ p, p ∈ stored_nodes sample_graph → is_seen h' p = false) ∧
        (∀ p, name_of h' p = name_of (mark true sample_heap 2%nat) p ∧
              adj h' p = adj (mark true sample_heap 2%nat) p) ∧
        (∀ p, p ∉ stored_nodes sample_graph →
              heap_lookup h' p = heap_lookup (mark true sample_heap 2%nat) p).
Proof.
  apply (graph_reset_seen_clears_stored (mark true sample_heap 2%nat) sample_graph).
  reflexivity.
Defined.

(** ** graph_insert_node *)

Lemma array_1d_slot_Some a i :
  low a ≤ i ≤ high a → array_1d_slot a i = Some (Z.to_nat (i - low a)).
Proof.
  intros Hi. unfold array_1d_slot.
  destruct (low a <=? i) eqn:E1; [|lia]. destruct (i <=? high a) eqn:E2; [|lia]. done.
Qed.

Lemma array_1d_slot_None a i :
  ¬ (low a ≤ i ≤ high a) → array_1d_slot a i = None.
Proof.
  intros Hi. unfold array_1d_slot.
  destruct (low a <=? i) eqn:E1; [|done]. destruct (i <=? high a) eqn:E2; [|done]. lia.
Qed.

(** X5.  [graph_insert_node] has no capacity check.  With the slot
    [node_amount] inside the index range of the array it returns, having
    allocated the record at the end of the heap; with [node_amount] past
    the range the write to the array is undefined behaviour. *)
Theorem graph_insert_node_bounds g a s h :
  nodes g = Some a → array_1d_wf a = true → in_int (node_amount g + 1) = true →
  (low a ≤ node_amount g ≤ high a →
   ∃ g', graph_insert_node g s h
         = Ok g' (h ++ [{| name := s; seen := false; adjacent_nodes := dlist_empty |}]) ∧
         node_amount g' = node_amount g + 1 ∧ capacity g' = capacity g) ∧
  (¬ (low a ≤ node_amount g ≤ high a) → graph_insert_node g s h = Undefined).
Proof.
  intros Ea Hwf Hint. unfold graph_insert_node, malloc_node, the_array.
  rewrite bind_run, Ea, bind_run, ret_run, bind_run. unfold array_1d_set_value.
  split; intros Hn.
  - rewrite (array_1d_slot_Some a _ Hn).
    apply Nat.eqb_eq in Hwf.
    destruct (_ <? _)%nat eqn:Hk; [|apply Nat.ltb_ge in Hk; lia].
    rewrite ret_run, bind_run. unfold int_add. rewrite Hint, ret_run, ret_run.
    eexists. split_and!; [done|done|]. unfold capacity. by rewrite Ea.
  - by rewrite (array_1d_slot_None a _ Hn).
Qed.

Lemma graph_insert_node_bounds_witness :
  (0 ≤ 0 ≤ 1 →
   ∃ g', graph_insert_node (graph_empty 1) "A" []
         = Ok g' ([] ++ [{| name := "A"; seen := false; adjacent_nodes := dlist_empty |}]) ∧
         node_amount g' = 0 + 1 ∧ capacity g' = capacity (graph_empty 1)) ∧
  (¬ (0 ≤ 0 ≤ 1) → graph_insert_node (graph_empty 1) "A" [] = Undefined).
Proof.
  apply (graph_insert_node_bounds (graph_empty 1) (array_1d_create 0 1) "A" []);
    reflexivity.
Defined.

(** The third node does not fit a graph created for one node: the array
    of [graph_empty 1] has the slots 0 and 1. *)
Example graph_insert_node_overflow :
  (g ← graph_insert_node (graph_empty 1) "A";
   g ← graph_insert_node g "B";
   graph_insert_node g "C") [] = Undefined.
Proof. reflexivity. Qed.

Lemma graph_find_node_none g s h :
  graph_wf h g = true → ¬ has_name h g s → graph_find_node g s h = Ok NULL h.
Proof.
  intros Hwf Hno. destruct (graph_find_node_spec g s h Hwf) as (p & Hrun & Hp).
  destruct Hp as [[-> _]|[Hp Hname]]; [done|].
  exfalso. apply Hno. by exists p.
Qed.

Lemma graph_find_node_at g s h k p :
  graph_wf h g = true → stored_nodes g !! k = Some p → name_of h p = s →
  (∀ j q, (j < k)%nat → stored_nodes g !! j = Some q → name_of h q ≠ s) →
  graph_find_node g s h = Ok p h.
Proof.
  intros Hwf Hk Hname Hbefore. pose proof Hwf as [[a Ea] HC]%graph_wf_iff.
  assert (Hst : stored_nodes g = slot_value a <$> seqZ 0 (node_amount g)).
  { unfold stored_nodes. by rewrite Ea. }
  destruct (graph_find_node_from_first g a s h (seqZ 0 (node_amount g)) Ea HC)
    as (p' & Hrun & Hp').
  { intros i Hi. rewrite Hst. by apply list_elem_of_fmap_2. }
  unfold graph_find_node. rewrite Hrun. rewrite <- Hst in Hp'.
  destruct Hp' as [[-> Hall]|(k' & Hk' & Hnm' & Hbefore')].
  - exfalso. rewrite Hst in Hk. apply list_lookup_fmap_Some in Hk as (i & -> & Hi).
    apply (Hall i); [by eapply list_elem_of_lookup_2|done].
  - destruct (lt_eq_lt_dec k k') as [[Hlt|Heq]|Hgt].
    + by destruct (Hbefore' k p Hlt Hk).
    + subst k'. congruence.
    + by destruct (Hbefore k' p' Hgt Hk').
Qed.

(** What a returning [graph_insert_node] leaves of a well-formed graph. *)
Lemma graph_insert_node_wf g s h g' h' :
  graph_wf h g = true → 0 ≤ node_amount g →
  graph_insert_node g s h = Ok g' h' →
  graph_wf h' g' = true ∧
  h' = h ++ [{| name := s; seen := false; adjacent_nodes := dlist_empty |}] ∧
  stored_nodes g' = stored_nodes g ++ [S (length h)] ∧
  node_amount g' = node_amount g + 1 ∧
  (∀ q, q ∈ stored_nodes g → heap_lookup h' q = heap_lookup h q) ∧
  heap_lookup h' (S (length h))
  = Some {| name := s; seen := false; adjacent_nodes := dlist_empty |}.
Proof.
  intros [_ HC]%graph_wf_iff Hn Hrun.
  destruct (graph_insert_node_inv g s h g' h' Hn Hrun) as (-> & Ha' & Hn' & Hst).
  set (nd := {| name := s; seen := false; adjacent_nodes := dlist_empty |}) in *.
  assert (Hold : ∀ q, q ∈ stored_nodes g →
                      heap_lookup (h ++ [nd]) q = heap_lookup h q).
  { intros q Hq. rewrite heap_lookup_alloc. case_decide as E; [|done].
    destruct (HC q Hq) as [Hv _]. unfold valid in Hv.
    rewrite E, heap_lookup_fresh in Hv. done. }
  assert (Hnew : heap_lookup (h ++ [nd]) (S (length h)) = Some nd).
  { rewrite heap_lookup_alloc. by case_decide. }
  split_and!; try done.
  apply graph_wf_iff. split; [done|]. rewrite Hst.
  intros q [Hq| ->%list_elem_of_singleton]%elem_of_app.
  - destruct (HC q Hq) as [Hv Hadj]. unfold valid, adj in *.
    rewrite (Hold q Hq). split; [done|].
    intros n Hin. apply elem_of_app. left. by apply Hadj.
  - unfold valid, adj. rewrite Hnew. split; [done|].
    unfold nd, dlist_empty. simpl. intros; in_nil.
Qed.

Lemma graph_insert_node_room g s h n :
  has_room g n → 1 ≤ n → 0 ≤ node_amount g →
  ∃ g', graph_insert_node g s h
        = Ok g' (h ++ [{| name := s; seen := false; adjacent_nodes := dlist_empty |}]) ∧
        has_room g' (n - 1).
Proof.
  intros (a & Ea & Hwf & Hlow & Hhigh & Hmax) Hn H0.
  unfold graph_insert_node, malloc_node, the_array.
  rewrite bind_run, Ea, bind_run, ret_run, bind_run. unfold array_1d_set_value.
  rewrite (array_1d_slot_Some a (node_amount g)) by lia.
  pose proof Hwf as Hlen%Nat.eqb_eq.
  destruct (_ <? _)%nat eqn:Hk; [|apply Nat.ltb_ge in Hk; lia].
  rewrite ret_run, bind_run. unfold int_add, in_int, INT_MIN.
  unfold INT_MAX in *.
  destruct ((- 2 ^ 31 <=? node_amount g + 1) && (node_amount g + 1 <=? 2 ^ 31 - 1)) eqn:E.
  2:{ apply andb_false_iff in E as [E|E]; [apply Z.leb_gt in E|apply Z.leb_gt in E]; lia. }
  rewrite ret_run, ret_run. eexists. split; [done|].
  eexists. split; [done|]. unfold array_1d_wf. simpl.
  rewrite length_insert. split_and!; try done; lia.
Qed.

(** X6.  Insert, then look up: in a graph between two queries with a free
    slot, [graph_insert_node] of a name no stored node carries returns, the
    graph stays in that state, [graph_find_node] of the name returns the
    new node (unseen, without neighbours), and the names stored before are
    found as before. *)
Theorem graph_insert_node_find_node g s h :
  graph_ok h g = true → has_room g 1 → ¬ has_name h g s →
  ∃ g' h' p,
    graph_insert_node g s h = Ok g' h' ∧ graph_ok h' g' = true ∧
    graph_find_node g' s h' = Ok p h' ∧ is_null p = false ∧
    heap_lookup h' p = Some {| name := s; seen := false; adjacent_nodes := dlist_empty |} ∧
    stored_nodes g' = stored_nodes g ++ [p] ∧
    (∀ nm q, nm ≠ s → graph_find_node g nm h = Ok q h →
             graph_find_node g' nm h' = Ok q h').
Proof.
  intros Hok Hroom Hfresh. pose proof (graph_ok_wf _ _ Hok) as Hwf.
  pose proof Hok as (_ & _ & _ & _ & Hn)%graph_ok_iff.
  destruct (graph_insert_node_room g s h 1 Hroom) as (g' & Hrun & _); [lia|done|].
  set (h' := h ++ [{| name := s; seen := false; adjacent_nodes := dlist_empty |}]) in *.
  destruct (graph_insert_node_wf g s h g' h' Hwf Hn Hrun)
    as (Hwf' & _ & Hst & _ & Hold & Hnew).
  destruct (graph_insert_node_ok g s h g' h' Hok) as (Hok' & _ & _); [|done|].
  { intros q Hq Hname. apply Hfresh. by exists q. }
  assert (Hnames : ∀ q, q ∈ stored_nodes g → name_of h' q = name_of h q).
  { intros q Hq. unfold name_of. by rewrite (Hold q Hq). }
  exists g', h', (S (length h)). split_and!; try done.
  - apply (graph_find_node_at g' s h' (length (stored_nodes g))); [done| | |].
    + rewrite Hst. by apply list_lookup_middle.
    + unfold name_of. by rewrite Hnew.
    + intros j q Hj Hq. rewrite Hst, lookup_app_l in Hq by done.
      apply list_elem_of_lookup_2 in Hq. rewrite (Hnames q Hq).
      intros Hname. apply Hfresh. by exists q.
  - intros nm q Hnm Hfind.
    destruct (graph_find_node_from_first g) with (s := nm) (h := h)
      (idx := seqZ 0 (node_amount g)) (a := default (array_1d_create 0 0) (nodes g))
      as (q' & Hrun' & Hq').
    { destruct (graph_wf_array _ _ Hwf) as [a ->]. done. }
    { by apply graph_wf_closed. }
    { intros i Hi. unfold stored_nodes. destruct (graph_wf_array _ _ Hwf) as [a ->].
      by apply list_elem_of_fmap_2. }
    unfold graph_find_node in Hfind. rewrite Hrun' in Hfind. injection Hfind as ->.
    assert (Hst0 : stored_nodes g
                   = slot_value (default (array_1d_create 0 0) (nodes g))
                       <$> seqZ 0 (node_amount g)).
    { unfold stored_nodes. by destruct (graph_wf_array _ _ Hwf) as [a ->]. }
    rewrite <- Hst0 in Hq'.
    destruct Hq' as [[-> Hall]|(k & Hk & Hname & Hbefore)].
    + apply graph_find_node_none; [done|]. intros (x & Hx & Hxn).
      rewrite Hst in Hx. apply elem_of_app in Hx as [Hx| ->%list_elem_of_singleton].
      * rewrite (Hnames x Hx) in Hxn. rewrite Hst0 in Hx.
        apply list_elem_of_fmap in Hx as (i & -> & Hi). by apply (Hall i Hi).
      * unfold name_of in Hxn. rewrite Hnew in Hxn. simpl in Hxn. congruence.
    + pose proof (lookup_lt_Some _ _ _ Hk) as Hlt.
      apply (graph_find_node_at g' nm h' k); [done| | |].
      * rewrite Hst. by rewrite lookup_app_l.
      * rewrite Hnames; [done|]. by eapply list_elem_of_lookup_2.
      * intros j x Hj Hx. rewrite Hst, lookup_app_l in Hx by lia.
        rewrite Hnames by by eapply list_elem_of_lookup_2. by eapply Hbefore.
Qed.

Lemma sample_stored p : p ∈ stored_nodes sample_graph → p ∈ [1; 2; 3; 4]%nat.
Proof. done. Qed.

Lemma graph_insert_node_find_node_witness :
  ∃ g' h' p,
    graph_insert_node sample_graph "E" sample_heap = Ok g' h' ∧
    graph_ok h' g' = true ∧
    graph_find_node g' "E" h' = Ok p h' ∧ is_null p = false ∧
    heap_lookup h' p = Some {| name := "E"; seen := false; adjacent_nodes := dlist_empty |} ∧
    stored_nodes g' = stored_nodes sample_graph ++ [p] ∧
    (∀ nm q, nm ≠ "E"%string → graph_find_node sample_graph nm sample_heap = Ok q sample_heap →
             graph_find_node g' nm h' = Ok q h').
Proof.
  apply (graph_insert_node_find_node sample_graph "E" sample_heap).
  - reflexivity.
  - eexists. split_and!; [reflexivity|reflexivity|simpl; lia|simpl; lia|reflexivity].
  - intros (p & Hp & Hname). apply sample_stored in Hp.
    repeat (apply elem_of_cons in Hp as [->|Hp]; [discriminate Hname|]).
    by apply elem_of_nil in Hp.
Defined.

(** X7.  [graph_insert_node] does not look for the name in the graph: with
    a free slot, inserting a name that a stored node already carries
    returns with one node more; [graph_find_node] keeps returning the node
    it returned before, and the names of the graph are no longer unique. *)
Theorem graph_insert_node_duplicate g s h p :
  graph_wf h g = true → 0 ≤ node_amount g → has_room g 1 →
  graph_find_node g s h = Ok p h → is_null p = false →
  ∃ g' h', graph_insert_node g s h = Ok g' h' ∧
           node_amount g' = node_amount g + 1 ∧
           graph_find_node g' s h' = Ok p h' ∧
           names_unique h' g' = false.
Proof.
  intros Hwf Hn Hroom Hfind Hnn.
  destruct (graph_insert_node_room g s h 1 Hroom) as (g' & Hrun & _); [lia|done|].
  set (h' := h ++ [{| name := s; seen := false; adjacent_nodes := dlist_empty |}]) in *.
  destruct (graph_insert_node_wf g s h g' h' Hwf Hn Hrun)
    as (Hwf' & _ & Hst & Hn' & Hold & Hnew).
  assert (Hnames : ∀ q, q ∈ stored_nodes g → name_of h' q = name_of h q).
  { intros q Hq. unfold name_of. by rewrite (Hold q Hq). }
  destruct (graph_wf_array _ _ Hwf) as [a Ea].
  assert (Hst0 : stored_nodes g = slot_value a <$> seqZ 0 (node_amount g)).
  { unfold stored_nodes. by rewrite Ea. }
  destruct (graph_find_node_from_first g a s h (seqZ 0 (node_amount g)) Ea
              (graph_wf_closed _ _ Hwf)) as (p' & Hrun' & Hp').
  { intros i Hi. rewrite Hst0. by apply list_elem_of_fmap_2. }
  unfold graph_find_node in Hfind. rewrite Hrun' in Hfind. injection Hfind as ->.
  rewrite <- Hst0 in Hp'. destruct Hp' as [[-> _]|(k & Hk & Hname & Hbefore)]; [done|].
  pose proof (lookup_lt_Some _ _ _ Hk) as Hlt.
  pose proof (list_elem_of_lookup_2 _ _ _ Hk) as Hin.
  exists g', h'. split_and!; [done|done| |].
  - apply (graph_find_node_at g' s h' k); [done| | |].
    + rewrite Hst. by rewrite lookup_app_l.
    + by rewrite Hnames.
    + intros j x Hj Hx. rewrite Hst, lookup_app_l in Hx by lia.
      rewrite Hnames by by eapply list_elem_of_lookup_2. by eapply Hbefore.
  - unfold names_unique. apply bool_decide_eq_false. rewrite Hst, fmap_app.
    intros (_ & Hdisj & _)%NoDup_app. apply (Hdisj s).
    + apply list_elem_of_fmap. exists p. split; [|done]. by rewrite Hnames.
    + simpl. unfold name_of. rewrite Hnew. simpl. left.
Qed.

Lemma graph_insert_node_duplicate_witness :
  ∃ g' h', graph_insert_node sample_graph "B" sample_heap = Ok g' h' ∧
           node_amount g' = node_amount sample_graph + 1 ∧
           graph_find_node g' "B" h' = Ok 2%nat h' ∧
           names_unique h' g' = false.
Proof.
  apply (graph_insert_node_duplicate sample_graph "B" sample_heap 2%nat).
  - reflexivity.
  - simpl. lia.
  - eexists. split_and!; [reflexivity|reflexivity|simpl; lia|simpl; lia|reflexivity].
  - reflexivity.
  - reflexivity.
Defined.

(** ** graph_insert_edge *)

(** X8.  In a graph between two queries [graph_insert_edge] between two
    stored nodes returns and leaves the graph in that state; the recorded
    edges are the old ones and the new one, and names and flags are kept.
    The two nodes may be the same, and the edge may exist already. *)
Theorem graph_insert_edge_adds_edge g h n1 n2 :
  graph_ok h g = true → is_stored g n1 = true → is_stored g n2 = true →
  ∃ h', graph_insert_edge g n1 n2 h = Ok g h' ∧ graph_ok h' g = true ∧
        (∀ a b, edge h' a b ↔ edge h a b ∨ (a = n1 ∧ b = n2)) ∧
        (∀ p, name_of h' p = name_of h p ∧ is_seen h' p = is_seen h p).
Proof.
  intros Hok H1%is_stored_elem H2%is_stored_elem.
  destruct (graph_insert_edge_ok g h n1 n2 Hok H1 H2) as (h' & Hrun & Hok').
  pose proof (graph_wf_closed _ _ (graph_ok_wf _ _ Hok) n1 H1) as [Hv _].
  destruct (graph_insert_edge_run g h n1 n2 Hv) as (h1 & Hrun1 & _ & Hadj).
  rewrite Hrun in Hrun1. injection Hrun1 as <-.
  exists h'. split_and!; [done|done| |].
  - intros a b. unfold edge. rewrite Hadj. case_decide as E.
    + subst a. rewrite elem_of_cons. split; [intros [->|?]; auto|].
      intros [?|[_ ->]]; auto.
    + split; [auto|]. intros [?|[? _]]; done.
  - intros p. destruct (proj1 (valid_lookup _ _) Hv) as [nd Hnd].
    unfold graph_insert_edge in Hrun.
    rewrite (bind_Ok _ _ _ _ _ (load_run _ _ _ Hnd)) in Hrun.
    unfold store in Hrun. rewrite bind_run, Hnd in Hrun. injection Hrun as <-.
    unfold name_of, is_seen. rewrite heap_lookup_update by done.
    case_decide as E; [|done]. subst p. by rewrite Hnd.
Qed.

Lemma graph_insert_edge_adds_edge_witness :
  ∃ h', graph_insert_edge sample_graph 3%nat 3%nat sample_heap = Ok sample_graph h' ∧
        graph_ok h' sample_graph = true ∧
        (∀ a b, edge h' a b ↔ edge sample_heap a b ∨ (a = 3%nat ∧ b = 3%nat)) ∧
        (∀ p, name_of h' p = name_of sample_heap p ∧ is_seen h' p = is_seen sample_heap p).
Proof.
  apply (graph_insert_edge_adds_edge sample_graph sample_heap 3%nat 3%nat); reflexivity.
Defined.

(** * More of is_connected.c: the loader *)

(** ** Edge records *)

Lemma substring_all s : ∀ n, (String.length s ≤ n)%nat → substring 0 n s = s.
Proof.
  induction s as [|c s IH]; intros [|n] Hn; simpl in *; try done; try lia.
  by rewrite IH by lia.
Qed.

(** X9.  The names that [validate_node_names] accepts are stored in the
    edge record as they are: the copy of at most 40 characters in
    [create_edge] cuts nothing off. *)
Theorem create_edge_keeps_valid_names s d :
  validate_node_names s d = true → create_edge s d = {| src := s; dest := d |}.
Proof.
  unfold validate_node_names, create_edge, MAX_NODE_NAME_LENGTH, MAX_NODE_CHAR_LENGTH.
  destruct (string_forall isalnum s); [|done].
  destruct (string_forall isalnum d); [|done]. simpl.
  destruct (40 <? String.length s)%nat eqn:E1; [done|].
  destruct (40 <? String.length d)%nat eqn:E2; [done|].
  apply Nat.ltb_ge in E1, E2. intros _.
  by rewrite !substring_all by done.
Qed.

Lemma create_edge_keeps_valid_names_witness :
  create_edge "Umea" "Stockholm" = {| src := "Umea"; dest := "Stockholm" |}.
Proof. apply (create_edge_keeps_valid_names "Umea" "Stockholm"). reflexivity. Defined.

(** ** The edge-count line *)

Lemma get_number_of_edges_scan_skip line fp :
  is_count_line line = false →
  get_number_of_edges_scan (line :: fp) = get_number_of_edges_scan fp.
Proof.
  unfold is_count_line. simpl. destruct (isdigit (char_at line 0)); [|done].
  simpl. by intros ->.
Qed.

(** X10.  [get_number_of_edges] takes the first line that starts with a
    digit and ends with a newline for the edge count and leaves the file
    position right behind it; every line before it is passed over,
    whatever it holds, and without such a line nothing is found and the
    whole file is used up. *)
Theorem get_number_of_edges_scan_first_count_line pre :
  forallb (λ l, negb (is_count_line l)) pre = true →
  get_number_of_edges_scan pre = (0, false, []) ∧
  ∀ line fp, is_count_line line = true →
    get_number_of_edges_scan (pre ++ line :: fp)
    = (int_of_long (strtol (substring 0 (String.length line - 1) line)), true, fp).
Proof.
  induction pre as [|l pre IH]; intros Hpre.
  - split; [done|]. intros line fp Hline. unfold is_count_line in Hline.
    apply andb_true_iff in Hline as [H1 H2]. simpl. by rewrite H1, H2.
  - simpl in Hpre. apply andb_true_iff in Hpre as [Hl%negb_true_iff Hpre].
    destruct (IH Hpre) as [IH1 IH2]. split.
    + by rewrite get_number_of_edges_scan_skip.
    + intros line fp Hline. rewrite <- app_comm_cons.
      rewrite get_number_of_edges_scan_skip by done. by apply IH2.
Qed.

Lemma get_number_of_edges_scan_first_count_line_witness :
  get_number_of_edges_scan ["# towns" ++ nl; "A B" ++ nl; "7"]%string = (0, false, []) ∧
  ∀ line fp, is_count_line line = true →
    get_number_of_edges_scan (["# towns" ++ nl; "A B" ++ nl; "7"]%string ++ line :: fp)
    = (int_of_long (strtol (substring 0 (String.length line - 1) line)), true, fp).
Proof.
  apply (get_number_of_edges_scan_first_count_line
           ["# towns" ++ nl; "A B" ++ nl; "7"]%string).
  reflexivity.
Defined.

(** ** The list of edge records *)

Lemma add_edges_to_list_from_rev fp : ∀ l h,
  forallb valid_edge_line (List.filter is_edge_line fp) = true →
  add_edges_to_list_from fp l 0%nat h
  = Ok (rev (edge_of_line <$> List.filter is_edge_line fp) ++ l) h.
Proof.
  induction fp as [|line fp IH]; intros l h Hvalid; [done|].
  simpl in *. fold (is_edge_line line) in *.
  destruct (is_edge_line line); simpl in *; [|by apply IH].
  apply andb_true_iff in Hvalid as [Hline Hvalid].
  unfold valid_edge_line in Hline. unfold edge_of_line.
  destruct (sscanf_ss line) as [[[s|] [d|]]|]; try done.
  rewrite Hline. unfold list_insert. simpl. rewrite IH by done.
  by rewrite <- app_assoc.
Qed.

Lemma add_edges_to_list_rev fp l h :
  forallb valid_edge_line (List.filter is_edge_line fp) = true →
  add_edges_to_list fp l h
  = Ok (rev (edge_of_line <$> List.filter is_edge_line fp) ++ l) h.
Proof. intros Hvalid. unfold add_edges_to_list, list_first. by apply add_edges_to_list_from_rev. Qed.

(** X11.  When every edge line of the rest of the file carries two valid
    names, [add_edges_to_list] returns, with the heap untouched, the
    records of the edge lines in the reverse of their order in the file,
    in front of what the list held: every record is inserted in front of
    the one inserted before it. *)
Theorem add_edges_to_list_reverse_order fp l h :
  forallb valid_edge_line (List.filter is_edge_line fp) = true →
  add_edges_to_list fp l h
  = Ok (rev (edge_of_line <$> List.filter is_edge_line fp) ++ l) h.
Proof. apply add_edges_to_list_rev. Qed.

Lemma add_edges_to_list_reverse_order_witness :
  add_edges_to_list ["A B" ++ nl; "# note" ++ nl; nl; "B C" ++ nl; " C  D" ++ nl]%string [] []
  = Ok (rev (edge_of_line <$> List.filter is_edge_line
               ["A B" ++ nl; "# note" ++ nl; nl; "B C" ++ nl; " C  D" ++ nl]%string) ++ []) [].
Proof.
  apply (add_edges_to_list_reverse_order
           ["A B" ++ nl; "# note" ++ nl; nl; "B C" ++ nl; " C  D" ++ nl]%string [] []).
  reflexivity.
Defined.

Example add_edges_to_list_sample :
  add_edges_to_list ["A B" ++ nl; "# note" ++ nl; nl; "B C" ++ nl; " C  D" ++ nl]%string [] []
  = Ok [ {| src := "C"; dest := "D" |}; {| src := "B"; dest := "C" |};
         {| src := "A"; dest := "B" |} ] [].
Proof. reflexivity. Qed.

(** ** How the loader fails *)

Lemma never_exits_ret {A} (a : A) : never_exits (mret a : M A).
Proof. intros h. done. Qed.

Lemma never_exits_undefined {A} : never_exits (undefined : M A).
Proof. intros h. done. Qed.

Lemma never_exits_bind {A B} (m : M A) (f : A → M B) :
  never_exits m → (∀ a, never_exits (f a)) → never_exits (m ≫= f).
Proof.
  intros Hm Hf h. rewrite bind_run. specialize (Hm h).
  destruct (m h) as [a h1|s1 h1| |]; try done. apply Hf.
Qed.

Lemma never_exits_load p : never_exits (load p).
Proof. intros h. unfold load. by destruct (heap_lookup h p). Qed.

Lemma never_exits_store p nd : never_exits (store p nd).
Proof. intros h. unfold store. by destruct (heap_lookup h p). Qed.

Lemma never_exits_the_array g : never_exits (the_array g).
Proof. unfold the_array. destruct (nodes g); [apply never_exits_ret|apply never_exits_undefined]. Qed.

Lemma never_exits_inspect a i : never_exits (array_1d_inspect_value a i).
Proof.
  unfold array_1d_inspect_value. destruct (array_1d_slot a i); [|apply never_exits_undefined].
  destruct (values a !! n); [apply never_exits_ret|apply never_exits_undefined].
Qed.

Lemma never_exits_graph_find_node g s : never_exits (graph_find_node g s).
Proof.
  unfold graph_find_node. induction (seqZ 0 (node_amount g)) as [|i idx IH]; simpl.
  - apply never_exits_ret.
  - apply never_exits_bind; [apply never_exits_the_array|intros a].
    apply never_exits_bind; [apply never_exits_inspect|intros p].
    apply never_exits_bind; [apply never_exits_load|intros nd].
    destruct (String.eqb _ _); [apply never_exits_ret|done].
Qed.

Lemma never_exits_graph_insert_node g s : never_exits (graph_insert_node g s).
Proof.
  unfold graph_insert_node.
  apply never_exits_bind; [by intros h|intros p].
  apply never_exits_bind; [apply never_exits_the_array|intros a].
  apply never_exits_bind; [|intros a'].
  { unfold array_1d_set_value. destruct (array_1d_slot _ _); [|apply never_exits_undefined].
    destruct (_ <? _)%nat; [apply never_exits_ret|apply never_exits_undefined]. }
  apply never_exits_bind; [|intros n; apply never_exits_ret].
  unfold int_add. destruct (in_int _); [apply never_exits_ret|apply never_exits_undefined].
Qed.

Lemma never_exits_graph_insert_edge g n1 n2 : never_exits (graph_insert_edge g n1 n2).
Proof.
  unfold graph_insert_edge.
  apply never_exits_bind; [apply never_exits_load|intros nd].
  apply never_exits_bind; [apply never_exits_store|intros _; apply never_exits_ret].
Qed.

Lemma never_exits_find_or_insert g s p :
  never_exits (if is_null p
               then g' ← graph_insert_node g s; p' ← graph_find_node g' s; mret (g', p')
               else mret (g, p)).
Proof.
  destruct (is_null p); [|apply never_exits_ret].
  apply never_exits_bind; [apply never_exits_graph_insert_node|intros g'].
  apply never_exits_bind; [apply never_exits_graph_find_node|intros p'].
  apply never_exits_ret.
Qed.

Lemma never_exits_create_graph l : ∀ g, never_exits (create_graph g l).
Proof.
  induction l as [|e l IH]; intros g; simpl; [apply never_exits_ret|].
  apply never_exits_bind; [apply never_exits_graph_find_node|intros s].
  apply never_exits_bind; [apply never_exits_find_or_insert|intros [g1 s1]].
  apply never_exits_bind; [apply never_exits_graph_find_node|intros d].
  apply never_exits_bind; [apply never_exits_find_or_insert|intros [g2 d1]].
  apply never_exits_bind; [apply never_exits_graph_insert_edge|intros g3].
  apply IH.
Qed.

Lemma exits_cleanly_ret {A} (a : A) : exits_cleanly (mret a : M A).
Proof. intros h. done. Qed.

Lemma exits_cleanly_undefined {A} : exits_cleanly (undefined : M A).
Proof. intros h. done. Qed.

Lemma exits_cleanly_exit {A} : exits_cleanly (exit EXIT_FAILURE : M A).
Proof. intros h. done. Qed.

Lemma exits_cleanly_bind {A B} (m : M A) (f : A → M B) :
  exits_cleanly m → (∀ a, exits_cleanly (f a)) → exits_cleanly (m ≫= f).
Proof.
  intros Hm Hf h. rewrite bind_run. specialize (Hm h).
  destruct (m h) as [a h1|s1 h1| |]; try done.
  subst h1. apply Hf.
Qed.

Lemma exits_cleanly_int_mul a b : exits_cleanly (int_mul a b).
Proof.
  unfold int_mul. destruct (in_int _); [apply exits_cleanly_ret|apply exits_cleanly_undefined].
Qed.

Lemma exits_cleanly_get_number_of_edges fp : exits_cleanly (get_number_of_edges fp).
Proof.
  unfold get_number_of_edges. destruct (get_number_of_edges_scan fp) as [[E found] fp'].
  destruct (found && (0 <? E)); [|apply exits_cleanly_ret].
  apply exits_cleanly_bind; [apply exits_cleanly_int_mul|intros n; apply exits_cleanly_ret].
Qed.

Lemma exits_cleanly_add_edges_to_list_from fp : ∀ l pos,
  exits_cleanly (add_edges_to_list_from fp l pos).
Proof.
  induction fp as [|line fp IH]; intros l pos; simpl; [apply exits_cleanly_ret|].
  destruct (_ && _); [|apply IH].
  destruct (sscanf_ss line) as [[[s|] [d|]]|]; try apply exits_cleanly_undefined.
  - destruct (validate_node_names s d); [|apply exits_cleanly_exit].
    unfold list_insert. apply IH.
  - destruct (string_forall isalnum s);
      [apply exits_cleanly_undefined|apply exits_cleanly_exit].
Qed.

Lemma exits_cleanly_info_from_file fs argv l : exits_cleanly (info_from_file fs argv l).
Proof.
  unfold info_from_file. destruct (_ <? _)%nat; [apply exits_cleanly_exit|].
  destruct (fopen _ _) as [fp|]; [|apply exits_cleanly_exit].
  apply exits_cleanly_bind; [apply exits_cleanly_get_number_of_edges|intros [n fp']].
  destruct (n =? 0); [apply exits_cleanly_exit|].
  apply exits_cleanly_bind; [apply exits_cleanly_add_edges_to_list_from|intros l'].
  apply exits_cleanly_bind; [apply exits_cleanly_int_mul|intros k; apply exits_cleanly_ret].
Qed.

(** X12.  However the loader ends the process, it does so with status
    EXIT_FAILURE and before the first node record is allocated: every
    [exit] lies in [info_from_file] (no argument, no file, no edge count,
    a name that [validate_node_names] rejects, alone on its line or with a
    second one), none in [create_graph] and the graph operations it
    calls. *)
Theorem prepare_graph_exit_is_clean fs argv l h s h' :
  prepare_graph fs argv l h = Exit s h' → s = EXIT_FAILURE ∧ h' = h.
Proof.
  unfold prepare_graph. rewrite bind_run.
  pose proof (exits_cleanly_info_from_file fs argv l h) as Hinfo.
  destruct (info_from_file fs argv l h) as [[n l1] h1|s1 h1| |]; try done.
  - intros Hexit. pose proof (never_exits_create_graph l1 (graph_empty n) h1) as Hne.
    by rewrite Hexit in Hne.
  - intros [= <- <-]. done.
Qed.

Lemma prepare_graph_exit_is_clean_witness :
  EXIT_FAILURE = EXIT_FAILURE ∧ sample_heap = sample_heap.
Proof.
  apply (prepare_graph_exit_is_clean lone_name_fs ["is_connected"; "lone.txt"]%string
           [] sample_heap EXIT_FAILURE sample_heap).
  vm_compute; reflexivity.
Defined.

Example prepare_graph_missing_file h :
  prepare_graph sample_fs ["is_connected"; "missing.txt"]%string [] h
  = Exit EXIT_FAILURE h.
Proof. reflexivity. Qed.

Example prepare_graph_no_argument h : prepare_graph sample_fs ["is_connected"]%string [] h
                                      = Exit EXIT_FAILURE h.
Proof. reflexivity. Qed.

(** ** What [create_graph] builds *)

Lemma has_room_le g n m : has_room g n → m ≤ n → has_room g m.
Proof. intros (a & ? & ? & ? & ? & ?) Hm. exists a. split_and!; try done. lia. Qed.

(** The find-or-insert step, by names: the name is in the graph
    afterwards, and no edge has come or gone. *)
Lemma find_or_insert_names g nm h p0 h0 g1 p1 h1 :
  graph_ok h g = true →
  graph_find_node g nm h = Ok p0 h0 →
  (if is_null p0
   then g' ← graph_insert_node g nm; p' ← graph_find_node g' nm; mret (g', p')
   else mret (g, p0)) h0 = Ok (g1, p1) h1 →
  graph_ok h1 g1 = true ∧ p1 ∈ stored_nodes g1 ∧ name_of h1 p1 = nm ∧
  (∀ q, q ∈ stored_nodes g → q ∈ stored_nodes g1 ∧ name_of h1 q = name_of h q) ∧
  (∀ x, has_name h1 g1 x ↔ has_name h g x ∨ x = nm) ∧
  (∀ s d, named_edge h1 g1 s d ↔ named_edge h g s d).
Proof.
  intros Hok Hfind Hstep.
  pose proof (graph_ok_wf _ _ Hok) as Hwf.
  pose proof Hok as (_ & HC & _ & _ & Hn)%graph_ok_iff.
  destruct (graph_find_node_spec g nm h Hwf) as (p & Hrun & Hp).
  rewrite Hrun in Hfind. injection Hfind as <- <-.
  destruct Hp as [[-> Hall]|[Hp Hname]].
  - simpl in Hstep.
    apply bind_Ok_inv in Hstep as (g' & h' & Hins & Hstep).
    apply bind_Ok_inv in Hstep as (p' & h'' & Hfind' & Hstep).
    injection Hstep as <- <- <-.
    destruct (graph_insert_node_ok g nm h g' h' Hok Hall Hins) as (Hok' & _ & _).
    destruct (graph_insert_node_wf g nm h g' h' Hwf Hn Hins)
      as (Hwf' & _ & Hst & _ & Hold & Hnew).
    assert (Hnames : ∀ q, q ∈ stored_nodes g → name_of h' q = name_of h q).
    { intros q Hq. unfold name_of. by rewrite (Hold q Hq). }
    assert (Hnewname : name_of h' (S (length h)) = nm).
    { unfold name_of. by rewrite Hnew. }
    destruct (graph_find_node_spec g' nm h' Hwf') as (p1 & Hrun1 & Hp1).
    rewrite Hrun1 in Hfind'. injection Hfind' as <- <-.
    destruct Hp1 as [[-> Hnone]|[Hp1 Hp1n]].
    { exfalso. apply (Hnone (S (length h))); [|done].
      rewrite Hst. apply elem_of_app. right. by apply list_elem_of_singleton. }
    split_and!; try done.
    + intros q Hq. split; [|by apply Hnames]. rewrite Hst. apply elem_of_app. by left.
    + intros x. unfold has_name. rewrite Hst. split.
      * intros (q & [Hq| ->%list_elem_of_singleton]%elem_of_app & Hqn).
        -- left. exists q. split; [done|]. by rewrite <- Hnames.
        -- right. congruence.
      * intros [(q & Hq & Hqn)| ->].
        -- exists q. split; [apply elem_of_app; by left|]. by rewrite Hnames.
        -- exists (S (length h)). split; [|done].
           apply elem_of_app. right. by apply list_elem_of_singleton.
    + intros s d. unfold named_edge, edge. rewrite Hst. split.
      * intros (a & b & [Ha| ->%list_elem_of_singleton]%elem_of_app & Hb & Han & Hbn & Hedge).
        2:{ unfold adj in Hedge. rewrite Hnew in Hedge. unfold dlist_empty in Hedge.
            simpl in Hedge. in_nil. }
        unfold adj in Hedge. rewrite (Hold a Ha) in Hedge. fold (adj h a) in Hedge.
        pose proof (proj2 (HC a Ha) b Hedge) as Hb'.
        exists a, b. split_and!; try done; by rewrite <- Hnames.
      * intros (a & b & Ha & Hb & Han & Hbn & Hedge).
        exists a, b. split_and!; try (apply elem_of_app; by left); try by rewrite Hnames.
        unfold adj. by rewrite (Hold a Ha).
  - destruct (HC p Hp) as [Hv _].
    rewrite (valid_not_null _ _ Hv) in Hstep. injection Hstep as <- <- <-.
    split_and!; try done.
    intros x. split; [by left|]. intros [?| ->]; [done|]. by exists p.
Qed.

(** The edge step, by names. *)
Lemma graph_insert_edge_names g h n1 n2 g' h' :
  graph_ok h g = true → n1 ∈ stored_nodes g → n2 ∈ stored_nodes g →
  graph_insert_edge g n1 n2 h = Ok g' h' →
  g' = g ∧ graph_ok h' g = true ∧
  (∀ x, has_name h' g x ↔ has_name h g x) ∧
  (∀ s d, named_edge h' g s d ↔
          named_edge h g s d ∨ (s = name_of h n1 ∧ d = name_of h n2)).
Proof.
  intros Hok H1 H2 Hrun.
  destruct (graph_insert_edge_ok g h n1 n2 Hok H1 H2) as (h1 & Hrun1 & Hok').
  rewrite Hrun1 in Hrun. injection Hrun as <- <-.
  pose proof (graph_wf_closed _ _ (graph_ok_wf _ _ Hok) n1 H1) as [Hv _].
  destruct (proj1 (valid_lookup _ _) Hv) as [nd Hnd].
  destruct (graph_insert_edge_run g h n1 n2 Hv) as (h2 & Hrun2 & _ & Hadj).
  rewrite Hrun1 in Hrun2. injection Hrun2 as <-.
  assert (Hnames : ∀ p, name_of h1 p = name_of h p).
  { intros p. unfold graph_insert_edge in Hrun1.
    rewrite (bind_Ok _ _ _ _ _ (load_run _ _ _ Hnd)) in Hrun1.
    unfold store in Hrun1. rewrite bind_run, Hnd in Hrun1. injection Hrun1 as <-.
    unfold name_of. rewrite heap_lookup_update by done.
    case_decide as E; [|done]. subst p. by rewrite Hnd. }
  split_and!; try done.
  - intros x. unfold has_name. by setoid_rewrite Hnames.
  - intros s d. unfold named_edge, edge. setoid_rewrite Hnames. setoid_rewrite Hadj. split.
    + intros (a & b & Ha & Hb & Han & Hbn & Hedge). case_decide as E.
      * subst a. apply elem_of_cons in Hedge as [->|Hedge]; [by right|].
        left. by exists n1, b.
      * left. by exists a, b.
    + intros [(a & b & Ha & Hb & Han & Hbn & Hedge)|[-> ->]].
      * exists a, b. split_and!; try done. case_decide; [by right|done].
      * exists n1, n2. split_and!; try done. rewrite decide_True by done. left.
Qed.

Lemma record_edge_cons e l s d :
  record_edge (e :: l) s d ↔ (s = src e ∧ d = dest e) ∨ record_edge l s d.
Proof.
  unfold record_edge. rewrite elem_of_cons. destruct e as [s0 d0]. simpl.
  split; [intros [[= -> ->]|?]; auto|]. intros [[-> ->]|?]; auto.
Qed.

(** Whenever [create_graph] returns: the graph stays in the state between
    two queries, the names in it are the old ones and those of the
    records, and its edges are the old ones and those of the records. *)
Lemma create_graph_names l : ∀ g h g' h',
  graph_ok h g = true → create_graph g l h = Ok g' h' →
  graph_ok h' g' = true ∧
  (∀ x, has_name h' g' x ↔ has_name h g x ∨ ∃ e, e ∈ l ∧ (x = src e ∨ x = dest e)) ∧
  (∀ s d, named_edge h' g' s d ↔ named_edge h g s d ∨ record_edge l s d).
Proof.
  induction l as [|e l IH]; intros g h g' h' Hok H; simpl in H.
  - injection H as <- <-. split_and!; [done| |].
    + intros x. split; [by left|]. intros [?|(e & ? & _)]; [done|in_nil].
    + intros s d. split; [by left|]. intros [?|?]; [done|]. unfold record_edge in *. in_nil.
  - apply bind_Ok_inv in H as (s0 & h1 & Hfs & H).
    apply bind_Ok_inv in H as ([g1 s1] & h2 & Hs & H).
    destruct (find_or_insert_names _ _ _ _ _ _ _ _ Hok Hfs Hs)
      as (Hok1 & Hs1 & Hs1n & _ & Hnm1 & Hed1).
    apply bind_Ok_inv in H as (d0 & h3 & Hfd & H).
    pose proof (graph_find_node_spec g1 (dest e) h2 (graph_ok_wf _ _ Hok1))
      as (d0' & Hfd' & _).
    rewrite Hfd' in Hfd. injection Hfd as <- <-.
    apply bind_Ok_inv in H as ([g2 d1] & h4 & Hd & H).
    destruct (find_or_insert_names _ _ _ _ _ _ _ _ Hok1 Hfd' Hd)
      as (Hok2 & Hd1 & Hd1n & Hmono & Hnm2 & Hed2).
    apply bind_Ok_inv in H as (g3 & h5 & He & H).
    destruct (Hmono s1 Hs1) as [Hs1' Hs1n'].
    destruct (graph_insert_edge_names g2 h4 s1 d1 g3 h5 Hok2 Hs1' Hd1 He)
      as (-> & Hok3 & Hnm3 & Hed3).
    destruct (IH g2 h5 g' h' Hok3 H) as (Hok' & Hnm' & Hed').
    split_and!; [done| |].
    + intros x. rewrite Hnm', Hnm3, Hnm2, Hnm1. split.
      * intros [[[?| ->]| ->]|(e' & He' & Hx)]; auto.
        -- right. exists e. split; [left|auto].
        -- right. exists e. split; [left|auto].
        -- right. exists e'. split; [by right|done].
      * intros [?|(e' & [->|He']%elem_of_cons & Hx)]; auto.
        -- destruct Hx as [->| ->]; auto.
        -- right. by exists e'.
    + intros s d. rewrite Hed', Hed3, Hed2, Hed1, record_edge_cons.
      rewrite Hs1n', Hs1n, Hd1n. tauto.
Qed.

Lemma find_or_insert_total g nm h n :
  graph_ok h g = true → has_room g n → 1 ≤ n →
  ∃ p0 g1 p1 h1,
    graph_find_node g nm h = Ok p0 h ∧
    (if is_null p0
     then g' ← graph_insert_node g nm; p' ← graph_find_node g' nm; mret (g', p')
     else mret (g, p0)) h = Ok (g1, p1) h1 ∧
    has_room g1 (n - 1).
Proof.
  intros Hok Hroom Hn. pose proof (graph_ok_wf _ _ Hok) as Hwf.
  pose proof Hok as (_ & _ & _ & _ & Hn0)%graph_ok_iff.
  destruct (graph_find_node_spec g nm h Hwf) as (p0 & Hrun & _).
  exists p0. destruct (is_null p0) eqn:E.
  - destruct (graph_insert_node_room g nm h n Hroom Hn Hn0) as (g' & Hins & Hroom').
    set (h' := h ++ [{| name := nm; seen := false; adjacent_nodes := dlist_empty |}]) in *.
    destruct (graph_insert_node_wf g nm h g' h' Hwf Hn0 Hins) as (Hwf' & _).
    destruct (graph_find_node_spec g' nm h' Hwf') as (p' & Hrun' & _).
    exists g', p', h'. split_and!; [done| |done].
    rewrite (bind_Ok _ _ _ _ _ Hins), (bind_Ok _ _ _ _ _ Hrun'). done.
  - exists g, p0, h. split_and!; [done|done|]. apply (has_room_le g n); [done|lia].
Qed.

Lemma create_graph_total l : ∀ g h n,
  graph_ok h g = true → has_room g n → 2 * Z.of_nat (length l) ≤ n →
  ∃ g' h', create_graph g l h = Ok g' h'.
Proof.
  induction l as [|e l IH]; intros g h n Hok Hroom Hn.
  - by exists g, h.
  - simpl length in Hn.
    destruct (find_or_insert_total g (src e) h n Hok Hroom)
      as (s0 & g1 & s1 & h1 & Hfs & Hs & Hroom1); [lia|].
    destruct (find_or_insert_names _ _ _ _ _ _ _ _ Hok Hfs Hs)
      as (Hok1 & Hs1 & _ & _ & _ & _).
    destruct (find_or_insert_total g1 (dest e) h1 (n - 1) Hok1 Hroom1)
      as (d0 & g2 & d1 & h2 & Hfd & Hd & Hroom2); [lia|].
    destruct (find_or_insert_names _ _ _ _ _ _ _ _ Hok1 Hfd Hd)
      as (Hok2 & Hd1 & _ & Hmono & _ & _).
    destruct (Hmono s1 Hs1) as [Hs1' _].
    destruct (graph_insert_edge_ok g2 h2 s1 d1 Hok2 Hs1' Hd1) as (h3 & He & Hok3).
    destruct (IH g2 h3 (n - 1 - 1) Hok3 Hroom2) as (g' & h' & Hrun); [lia|].
    exists g', h'. simpl.
    rewrite (bind_Ok _ _ _ _ _ Hfs), (bind_Ok _ _ _ _ _ Hs).
    rewrite (bind_Ok _ _ _ _ _ Hfd), (bind_Ok _ _ _ _ _ Hd).
    rewrite (bind_Ok _ _ _ _ _ He). done.
Qed.

Lemma info_from_file_run fs argv path fp E fp1 h :
  argv !! 1%nat = Some path → fopen fs path = Some fp →
  get_number_of_edges_scan fp = (E, true, fp1) →
  0 < E → 4 * E ≤ INT_MAX →
  forallb valid_edge_line (List.filter is_edge_line fp1) = true →
  info_from_file fs argv [] h
  = Ok (4 * E, rev (edge_of_line <$> List.filter is_edge_line fp1) ++ []) h.
Proof.
  intros Hpath Hfp Hscan HE Hmax Hvalid. unfold INT_MAX in Hmax.
  unfold info_from_file.
    pose proof (lookup_lt_Some _ _ _ Hpath) as Hargc.
    destruct (length argv <? 2)%nat eqn:E1; [apply Nat.ltb_lt in E1; lia|].
    rewrite Hpath. simpl. rewrite Hfp, bind_run.
    unfold get_number_of_edges. rewrite Hscan.
    destruct (0 <? E) eqn:E0; [|lia]. simpl.
    unfold int_mul, in_int, INT_MIN, INT_MAX. rewrite bind_run.
    destruct ((- 2 ^ 31 <=? E * 2) && (E * 2 <=? 2 ^ 31 - 1)) eqn:E2.
    2:{ apply andb_false_iff in E2 as [E2|E2]; apply Z.leb_gt in E2; lia. }
    rewrite ret_run, ret_run. destruct (E * 2 =? 0) eqn:E3; [lia|].
    rewrite bind_run, (add_edges_to_list_rev fp1 [] h Hvalid), bind_run.
    destruct ((- 2 ^ 31 <=? E * 2 * 2) && (E * 2 * 2 <=? 2 ^ 31 - 1)) eqn:E4.
    2:{ apply andb_false_iff in E4 as [E4|E4]; apply Z.leb_gt in E4; lia. }
    rewrite ret_run, ret_run. do 2 f_equal. lia.
Qed.

(** X13.  The loader returns a graph for every file that is well formed:
    an edge-count line with E > 0 (4·E within an int), after it edge lines
    with two valid names each, and at most 2·E of them (precisely, twice
    their number within the 4·E + 1 slots of the array).  The graph has
    capacity 4·E and is in the state that [find_path] asks for. *)
Theorem prepare_graph_total fs argv path fp E fp1 h :
  argv !! 1%nat = Some path → fopen fs path = Some fp →
  get_number_of_edges_scan fp = (E, true, fp1) →
  0 < E → 4 * E ≤ INT_MAX →
  forallb valid_edge_line (List.filter is_edge_line fp1) = true →
  2 * Z.of_nat (length (List.filter is_edge_line fp1)) ≤ 4 * E + 1 →
  ∃ g h', prepare_graph fs argv [] h = Ok g h' ∧
          capacity g = Some (4 * E) ∧ graph_ok h' g = true.
Proof.
  intros Hpath Hfp Hscan HE Hmax Hvalid Hcount.
  pose proof (info_from_file_run fs argv path fp E fp1 h Hpath Hfp Hscan HE Hmax Hvalid)
    as Hinfo.
  unfold INT_MAX in Hmax.
  set (l1 := rev (edge_of_line <$> List.filter is_edge_line fp1) ++ []) in *.
  destruct (create_graph_total l1 (graph_empty (4 * E)) h (4 * E + 1))
    as (g & h' & Hrun).
  - apply graph_ok_empty.
  - exists (array_1d_create 0 (4 * E)). unfold array_1d_wf, INT_MAX. simpl.
    rewrite length_replicate. split_and!; try done; try lia;
      apply Nat.eqb_eq; f_equal; lia.
  - unfold l1. rewrite app_nil_r, length_rev, length_fmap. done.
  - exists g, h'. unfold prepare_graph. rewrite (bind_Ok _ _ _ _ _ Hinfo).
    split_and!; [done| |].
    + by rewrite (create_graph_capacity _ _ _ _ _ Hrun).
    + by eapply create_graph_ok; [apply graph_ok_empty|].
Qed.

Lemma prepare_graph_total_witness :
  ∃ g h', prepare_graph sample_fs ["is_connected"; "abc.txt"]%string [] sample_heap = Ok g h' ∧
          capacity g = Some (4 * 2) ∧ graph_ok h' g = true.
Proof.
  apply (prepare_graph_total sample_fs ["is_connected"; "abc.txt"]%string "abc.txt"
           ["2" ++ nl; "A B" ++ nl; "B C" ++ nl]%string 2
           ["A B" ++ nl; "B C" ++ nl]%string sample_heap).
  - reflexivity.
  - vm_compute; reflexivity.
  - vm_compute; reflexivity.
  - lia.
  - vm_compute; discriminate.
  - vm_compute; reflexivity.
  - vm_compute; discriminate.
Defined.

Lemma add_edges_to_list_from_Ok_valid fp : ∀ l pos h l' h',
  add_edges_to_list_from fp l pos h = Ok l' h' →
  forallb valid_edge_line (List.filter is_edge_line fp) = true.
Proof.
  induction fp as [|line fp IH]; intros l pos h l' h' Hrun; [done|].
  simpl in *. fold (is_edge_line line) in *.
  destruct (is_edge_line line); simpl in *; [|by eapply IH].
  unfold valid_edge_line.
  destruct (sscanf_ss line) as [[[s|] [d|]]|]; try done.
  - destruct (validate_node_names s d); [|done]. simpl.
    unfold list_insert in Hrun. by eapply IH.
  - by destruct (string_forall isalnum s).
Qed.

Lemma info_from_file_Ok_inv fs argv h n l1 h1 :
  info_from_file fs argv [] h = Ok (n, l1) h1 →
  ∃ path fp E fp1,
    argv !! 1%nat = Some path ∧ fopen fs path = Some fp ∧
    get_number_of_edges_scan fp = (E, true, fp1) ∧ 0 < E ∧ n = 4 * E ∧ h1 = h ∧
    forallb valid_edge_line (List.filter is_edge_line fp1) = true ∧
    l1 = rev (file_edges fp1).
Proof.
  intros Hinfo. unfold info_from_file in Hinfo.
  destruct (length argv <? 2)%nat eqn:Hargc; [done|].
  apply Nat.ltb_ge in Hargc.
  destruct (argv !! 1%nat) as [path|] eqn:Hpath.
  2:{ apply lookup_ge_None in Hpath. lia. }
  simpl in Hinfo. destruct (fopen fs path) as [fp|] eqn:Hfp; [|done].
  apply bind_Ok_inv in Hinfo as ([m fp2] & h2 & Hnum & Hinfo).
  destruct (m =? 0) eqn:Hm; [done|].
  apply bind_Ok_inv in Hinfo as (l2 & h3 & Hadd & Hinfo).
  apply bind_Ok_inv in Hinfo as (k & h4 & Hk & Hinfo).
  pose proof (exits_cleanly_int_mul m 2 h3) as Hh4. rewrite Hk in Hh4. subst h4.
  apply int_mul_Ok in Hk. injection Hinfo as <- <- <-.
  unfold get_number_of_edges in Hnum.
  destruct (get_number_of_edges_scan fp) as [[E found] fp1] eqn:Hscan.
  destruct found; simpl in Hnum.
  2:{ injection Hnum as <- _ _. done. }
  destruct (0 <? E) eqn:HE.
  2:{ injection Hnum as <- _ _. done. }
  apply bind_Ok_inv in Hnum as (k' & h5 & Hk' & Hnum).
  pose proof (exits_cleanly_int_mul E 2 h) as Hh5. rewrite Hk' in Hh5. subst h5.
  apply int_mul_Ok in Hk'. injection Hnum as <- <- <-.
  unfold add_edges_to_list in Hadd.
  pose proof (add_edges_to_list_from_Ok_valid _ _ _ _ _ _ Hadd) as Hvalid.
  unfold list_first in Hadd. rewrite (add_edges_to_list_from_rev fp1 [] h Hvalid) in Hadd.
  injection Hadd as <- <-.
  exists path, fp, E, fp1. split_and!; try done; try lia.
  by rewrite app_nil_r.
Qed.

Lemma record_edge_rev l s d : record_edge (rev l) s d ↔ record_edge l s d.
Proof. unfold record_edge. by rewrite !list_elem_of_In, <- in_rev. Qed.

Lemma not_has_name_empty h n x : ¬ has_name h (graph_empty n) x.
Proof. intros (p & Hp & _). unfold stored_nodes in Hp. simpl in Hp. in_nil. Qed.

Lemma not_named_edge_empty h n s d : ¬ named_edge h (graph_empty n) s d.
Proof. intros (a & b & Ha & _). unfold stored_nodes in Ha. simpl in Ha. in_nil. Qed.

(** Whatever the loader returns. *)
Lemma prepare_graph_Ok_inv fs argv h g h' :
  prepare_graph fs argv [] h = Ok g h' →
  ∃ path fp E fp1,
    argv !! 1%nat = Some path ∧ fopen fs path = Some fp ∧
    get_number_of_edges_scan fp = (E, true, fp1) ∧
    graph_ok h' g = true ∧
    (∀ s d, named_edge h' g s d ↔ record_edge (file_edges fp1) s d) ∧
    (∀ x, has_name h' g x ↔ occurs_in (file_edges fp1) x).
Proof.
  unfold prepare_graph. intros ([n l1] & h1 & Hinfo & Hcreate)%bind_Ok_inv.
  apply info_from_file_Ok_inv in Hinfo
    as (path & fp & E & fp1 & Hpath & Hfp & Hscan & _ & _ & -> & _ & ->).
  destruct (create_graph_names _ _ _ _ _ (graph_ok_empty h n) Hcreate)
    as (Hok & Hnames & Hedges).
  exists path, fp, E, fp1. split_and!; try done.
  - intros s d. rewrite Hedges, record_edge_rev. split; [|by right].
    intros [H|H]; [by destruct (not_named_edge_empty _ _ _ _ H)|done].
  - intros x. rewrite Hnames. unfold occurs_in. split.
    + intros [H|(e & He & Hx)]; [by destruct (not_has_name_empty _ _ _ H)|].
      exists e. split; [|done]. by rewrite list_elem_of_In, in_rev, <- list_elem_of_In.
    + intros (e & He & Hx). right. exists e. split; [|done].
      by rewrite list_elem_of_In, <- in_rev, <- list_elem_of_In.
Qed.

(** X14.  Whenever the loader returns a graph, the file had an edge-count
    line, the graph is in the state between two queries (well formed,
    names unique, no node marked seen), and it holds what the edge lines
    after the count say and nothing else: an edge between two names
    exactly for the lines that carry the two names in that order (no
    reverse edge), and a node for exactly the names that occur on them. *)
Theorem prepare_graph_edges_are_the_edge_lines fs argv h g h' :
  prepare_graph fs argv [] h = Ok g h' →
  ∃ path fp E fp1,
    argv !! 1%nat = Some path ∧ fopen fs path = Some fp ∧
    get_number_of_edges_scan fp = (E, true, fp1) ∧
    graph_ok h' g = true ∧
    (∀ s d, named_edge h' g s d ↔ record_edge (file_edges fp1) s d) ∧
    (∀ x, has_name h' g x ↔ occurs_in (file_edges fp1) x).
Proof. apply prepare_graph_Ok_inv. Qed.

Lemma prepare_graph_edges_are_the_edge_lines_witness :
  ∃ path fp E fp1,
    ["is_connected"; "abc.txt"]%string !! 1%nat = Some path ∧
    fopen sample_fs path = Some fp ∧
    get_number_of_edges_scan fp = (E, true, fp1) ∧
    graph_ok abc_heap abc_graph = true ∧
    (∀ s d, named_edge abc_heap abc_graph s d ↔ record_edge (file_edges fp1) s d) ∧
    (∀ x, has_name abc_heap abc_graph x ↔ occurs_in (file_edges fp1) x).
Proof.
  apply (prepare_graph_edges_are_the_edge_lines sample_fs
           ["is_connected"; "abc.txt"]%string [] abc_graph abc_heap).
  vm_compute; reflexivity.
Defined.

(** * More of is_connected.c: the queries *)

Lemma graph_ok_parts h g :
  graph_ok h g = true →
  graph_wf h g = true ∧ names_unique h g = true ∧ all_unseen h g = true.
Proof. unfold graph_ok. rewrite !andb_true_iff. tauto. Qed.

(** A query on a graph between two queries leaves the heap as it is and
    answers whether a walk of at least one edge exists. *)
Lemma find_path_answer h g a b fuel :
  graph_ok h g = true → a ∈ stored_nodes g → b ∈ stored_nodes g →
  (Z.to_nat (node_amount g) < fuel)%nat →
  ∃ r, find_path fuel g a b h = Ok r h ∧ (r = true ↔ nonempty_walk h a b).
Proof.
  intros (Hwf & Huniq & Hclean)%graph_ok_parts Ha Hb Hfuel.
  destruct (find_path_total h g a b fuel Hwf Ha Hb Hfuel) as (r & h' & Hrun & He & Hu).
  pose proof (evolves_unseen_eq h h' g He Hclean Hu) as ->.
  exists r. split; [done|].
  destruct (find_path_iff_nonempty_walk h g a b fuel Hwf Huniq Hclean)
    as (r' & h'' & Hrun' & Hr); [by apply is_stored_elem..|done|].
  rewrite Hrun in Hrun'. by injection Hrun' as <- <-.
Qed.

Lemma find_and_show_path_core h g o d fuel :
  graph_ok h g = true → (Z.to_nat (node_amount g) < fuel)%nat →
  ∃ msg, find_and_show_path fuel g o d h = Ok msg h ∧
    (((¬ has_name h g o ∨ ¬ has_name h g d) ∧ msg = msg_no_such_node) ∨
     (∃ a b, a ∈ stored_nodes g ∧ b ∈ stored_nodes g ∧
             name_of h a = o ∧ name_of h b = d ∧
             ((nonempty_walk h a b ∧ msg = msg_path o d) ∨
              (¬ nonempty_walk h a b ∧ msg = msg_no_path o d)))).
Proof.
  intros Hok Hfuel. pose proof (graph_ok_wf _ _ Hok) as Hwf.
  pose proof (graph_wf_closed _ _ Hwf) as HC.
  destruct (graph_find_node_spec g o h Hwf) as (a & Ha & Hsa).
  destruct (graph_find_node_spec g d h Hwf) as (b & Hb & Hsb).
  unfold find_and_show_path.
  rewrite (bind_Ok _ _ _ _ _ Ha), (bind_Ok _ _ _ _ _ Hb).
  destruct Hsa as [[-> Hna]|[Hsa Hoa]].
  { exists msg_no_such_node. split; [done|]. left. split; [|done]. left.
    intros (p & Hp & Hpn). by apply (Hna p). }
  destruct Hsb as [[-> Hnb]|[Hsb Hdb]].
  { exists msg_no_such_node. split; [by rewrite orb_true_r|]. left. split; [|done].
    right. intros (p & Hp & Hpn). by apply (Hnb p). }
  rewrite (valid_not_null _ _ (proj1 (HC a Hsa))).
  rewrite (valid_not_null _ _ (proj1 (HC b Hsb))). simpl.
  destruct (find_path_answer h g a b fuel Hok Hsa Hsb Hfuel) as (r & Hrun & Hr).
  rewrite (bind_Ok _ _ _ _ _ Hrun). destruct r.
  - exists (msg_path o d). split; [done|]. right. exists a, b.
    split_and!; try done. left. split; [by apply Hr|done].
  - exists (msg_no_path o d). split; [done|]. right. exists a, b.
    split_and!; try done. right. split; [|done]. intros Hw. by apply Hr in Hw.
Qed.

(** X15.  [find_and_show_path] on a graph between two queries prints one
    message and leaves the heap as it is: the message that a node does
    not exist when one of the two names is not in the graph (then
    [find_path] is not called), and otherwise the message that there is a
    path exactly when a walk of at least one edge leads from the node of
    the first name to the node of the second; for twice the same name that
    is a cycle through the node. *)
Theorem find_and_show_path_answer h g o d fuel :
  graph_ok h g = true → (Z.to_nat (node_amount g) < fuel)%nat →
  ∃ msg, find_and_show_path fuel g o d h = Ok msg h ∧
    (((¬ has_name h g o ∨ ¬ has_name h g d) ∧ msg = msg_no_such_node) ∨
     (∃ a b, a ∈ stored_nodes g ∧ b ∈ stored_nodes g ∧
             name_of h a = o ∧ name_of h b = d ∧
             ((nonempty_walk h a b ∧ msg = msg_path o d) ∨
              (¬ nonempty_walk h a b ∧ msg = msg_no_path o d)))).
Proof. apply find_and_show_path_core. Qed.

Lemma find_and_show_path_answer_witness :
  ∃ msg, find_and_show_path 5 sample_graph "D" "C" sample_heap = Ok msg sample_heap ∧
    (((¬ has_name sample_heap sample_graph "D" ∨ ¬ has_name sample_heap sample_graph "C")
      ∧ msg = msg_no_such_node) ∨
     (∃ a b, a ∈ stored_nodes sample_graph ∧ b ∈ stored_nodes sample_graph ∧
             name_of sample_heap a = "D"%string ∧ name_of sample_heap b = "C"%string ∧
             ((nonempty_walk sample_heap a b ∧ msg = msg_path "D" "C") ∨
              (¬ nonempty_walk sample_heap a b ∧ msg = msg_no_path "D" "C")))).
Proof.
  apply (find_and_show_path_answer sample_heap sample_graph "D" "C" 5%nat);
    [reflexivity | simpl; lia].
Defined.

Example find_and_show_path_sample :
  find_and_show_path 5 sample_graph "D" "C" sample_heap
  = Ok (msg_path "D" "C") sample_heap ∧
  find_and_show_path 5 sample_graph "C" "D" sample_heap
  = Ok (msg_no_path "C" "D") sample_heap ∧
  find_and_show_path 5 sample_graph "C" "C" sample_heap
  = Ok (msg_no_path "C" "C") sample_heap ∧
  find_and_show_path 5 sample_graph "A" "A" sample_heap
  = Ok (msg_path "A" "A") sample_heap ∧
  find_and_show_path 5 sample_graph "A" "E" sample_heap
  = Ok msg_no_such_node sample_heap.
Proof. split_and!; reflexivity. Qed.

Lemma walk_to_chain h g l :
  graph_wf h g = true → (∀ s d, named_edge h g s d → record_edge l s d) →
  ∀ a b, nonempty_walk h a b → a ∈ stored_nodes g →
         b ∈ stored_nodes g ∧ record_chain l (name_of h a) (name_of h b).
Proof.
  intros Hwf Hedges a b Hwalk. pose proof (graph_wf_closed _ _ Hwf) as HC.
  induction Hwalk as [a b Hedge|a c b Hedge Hwalk IH]; intros Ha.
  - pose proof (proj2 (HC a Ha) b Hedge) as Hb. split; [done|].
    apply tc_once, Hedges. by exists a, b.
  - pose proof (proj2 (HC a Ha) c Hedge) as Hc. destruct (IH Hc) as [Hb Hchain].
    split; [done|]. eapply tc_l; [|exact Hchain]. apply Hedges. by exists a, c.
Qed.

Lemma chain_to_walk h g l :
  names_unique h g = true → (∀ s d, record_edge l s d → named_edge h g s d) →
  ∀ s d, record_chain l s d →
  ∀ a b, a ∈ stored_nodes g → b ∈ stored_nodes g →
         name_of h a = s → name_of h b = d → nonempty_walk h a b.
Proof.
  intros Huniq Hedges s d Hchain.
  induction Hchain as [s d Hedge|s x d Hedge Hchain IH]; intros a b Ha Hb Has Hbd.
  - apply Hedges in Hedge as (a' & b' & Ha' & Hb' & Has' & Hbd' & Hedge).
    rewrite <- Has in Has'. rewrite <- Hbd in Hbd'.
    apply (names_unique_inj h g a' a Huniq Ha' Ha) in Has'.
    apply (names_unique_inj h g b' b Huniq Hb' Hb) in Hbd'. subst.
    by apply tc_once.
  - apply Hedges in Hedge as (a' & c & Ha' & Hc & Has' & Hcx & Hedge).
    rewrite <- Has in Has'.
    apply (names_unique_inj h g a' a Huniq Ha' Ha) in Has'. subst a'.
    eapply tc_l; [exact Hedge|]. by apply IH.
Qed.

(** X16.  The program from the file to the answer: on the graph the
    loader returns, [find_and_show_path] reports a missing node when one
    of the two names occurs on no edge line, and otherwise reports a path
    exactly when the edge lines, each read as an edge from its first name
    to its second, form a chain of one or more edges from the first name
    to the second. *)
Theorem loaded_graph_answer fs argv h0 g h o d fuel :
  prepare_graph fs argv [] h0 = Ok g h →
  (Z.to_nat (node_amount g) < fuel)%nat →
  ∃ path fp E fp1 msg,
    argv !! 1%nat = Some path ∧ fopen fs path = Some fp ∧
    get_number_of_edges_scan fp = (E, true, fp1) ∧
    find_and_show_path fuel g o d h = Ok msg h ∧
    (((¬ occurs_in (file_edges fp1) o ∨ ¬ occurs_in (file_edges fp1) d)
      ∧ msg = msg_no_such_node) ∨
     (occurs_in (file_edges fp1) o ∧ occurs_in (file_edges fp1) d ∧
      ((record_chain (file_edges fp1) o d ∧ msg = msg_path o d) ∨
       (¬ record_chain (file_edges fp1) o d ∧ msg = msg_no_path o d)))).
Proof.
  intros (path & fp & E & fp1 & Hpath & Hfp & Hscan & Hok & Hedges & Hnames)%prepare_graph_Ok_inv
    Hfuel.
  destruct (graph_ok_parts _ _ Hok) as (Hwf & Huniq & _).
  destruct (find_and_show_path_core h g o d fuel Hok Hfuel) as (msg & Hrun & Hmsg).
  exists path, fp, E, fp1, msg. split_and!; try done.
  destruct Hmsg as [[Hmiss ->]|(a & b & Ha & Hb & Hao & Hbd & Hans)].
  - left. split; [|done]. rewrite <- !Hnames. done.
  - right. split_and!.
    + apply Hnames. by exists a.
    + apply Hnames. by exists b.
    + destruct Hans as [[Hw ->]|[Hw ->]]; [left|right]; (split; [|done]).
      * destruct (walk_to_chain h g (file_edges fp1) Hwf) with (a := a) (b := b)
          as [_ Hchain]; [by intros; apply Hedges|done|done|].
        by rewrite Hao, Hbd in Hchain.
      * intros Hchain. apply Hw.
        apply (chain_to_walk h g (file_edges fp1) Huniq) with (s := o) (d := d);
          try done. by intros; apply Hedges.
Qed.

Lemma loaded_graph_answer_witness :
  ∃ path fp E fp1 msg,
    ["is_connected"; "abc.txt"]%string !! 1%nat = Some path ∧
    fopen sample_fs path = Some fp ∧
    get_number_of_edges_scan fp = (E, true, fp1) ∧
    find_and_show_path 4 abc_graph "A" "C" abc_heap = Ok msg abc_heap ∧
    (((¬ occurs_in (file_edges fp1) "A" ∨ ¬ occurs_in (file_edges fp1) "C")
      ∧ msg = msg_no_such_node) ∨
     (occurs_in (file_edges fp1) "A" ∧ occurs_in (file_edges fp1) "C" ∧
      ((record_chain (file_edges fp1) "A" "C" ∧ msg = msg_path "A" "C") ∨
       (¬ record_chain (file_edges fp1) "A" "C" ∧ msg = msg_no_path "A" "C")))).
Proof.
  apply (loaded_graph_answer sample_fs ["is_connected"; "abc.txt"]%string []
           abc_graph abc_heap "A" "C" 4%nat).
  - vm_compute; reflexivity.
  - simpl. lia.
Defined.

(** X17.  [find_path] compares nodes by name.  On a well-formed graph
    with no node marked seen, also one in which names repeat, it returns
    true exactly when a walk of at least one edge leads from the source to
    some node that carries the name of the destination. *)
Theorem find_path_answers_by_name h g a b fuel :
  graph_wf h g = true → all_unseen h g = true →
  is_stored g a = true → is_stored g b = true →
  (Z.to_nat (node_amount g) < fuel)%nat →
  ∃ r h', find_path fuel g a b h = Ok r h' ∧
          (r = true ↔ ∃ n, name_of h n = name_of h b ∧ nonempty_walk h a n).
Proof.
  intros Hwf Hclean Ha%is_stored_elem Hb%is_stored_elem Hfuel.
  destruct (find_path_total h g a b fuel Hwf Ha Hb Hfuel) as (r & h' & Hrun & _ & _).
  exists r, h'. split; [done|]. by eapply find_path_correct.
Qed.

Lemma find_path_answers_by_name_witness :
  ∃ r h', find_path 4 twin_graph 1 3 twin_heap = Ok r h' ∧
          (r = true ↔ ∃ n, name_of twin_heap n = name_of twin_heap 3%nat ∧
                           nonempty_walk twin_heap 1%nat n).
Proof.
  apply (find_path_answers_by_name twin_heap twin_graph 1%nat 3%nat 4%nat);
    try reflexivity; simpl; lia.
Defined.

(** The query for the second B is answered with true, although no edge
    leads to it. *)
Example find_path_twin :
  find_path 4 twin_graph 1 3 twin_heap = Ok true twin_heap ∧ adj twin_heap 1%nat = [2%nat].
Proof. split; reflexivity. Qed.

(** X18.  The copy that [find_path] makes of an adjacency collection holds
    its elements in reverse: as [graph_insert_edge] puts the newest edge
    first, the neighbours of a node are looked at in the order in which
    their edges were inserted. *)
Theorem neighbour_copy_is_reversed l : copy_neighbours l dlist_empty = rev l.
Proof. rewrite copy_neighbours_rev. apply app_nil_r. Qed.

(** ** check_for_quit *)

Lemma substring_0_0 s : substring 0 0 s = EmptyString.
Proof. by destruct s. Qed.

(** X19.  [check_for_quit] answers true for every input that starts with
    the four characters quit, whatever follows them, and for no other. *)
Theorem check_for_quit_prefix input :
  (check_for_quit input).1 = true ↔ ∃ rest, input = ("quit" ++ rest)%string.
Proof.
  unfold check_for_quit, strncmp_eq.
  destruct (String.eqb_spec (substring 0 4 input) (substring 0 4 "quit")) as [E|E]; simpl.
  - split; [intros _|done].
    destruct input as [|c1 [|c2 [|c3 [|c4 rest]]]]; simpl in E; try discriminate.
    rewrite substring_0_0 in E. injection E as -> -> -> ->. by exists rest.
  - split; [done|]. intros [rest ->]. exfalso. apply E. simpl.
    by rewrite substring_0_0.
Qed.

Example check_for_quit_samples :
  (check_for_quit "quit").1 = true ∧ (check_for_quit "quite far").1 = true ∧
  (check_for_quit "qui").1 = false ∧ (check_for_quit " quit").1 = false.
Proof. split_and!; reflexivity. Qed.

(** * More of is_connected.c: more nodes than the array holds *)

Lemma graph_insert_node_in_range g s h g' h' c :
  graph_insert_node g s h = Ok g' h' → capacity g = Some c →
  capacity g' = Some c ∧ node_amount g' ≤ c + 1.
Proof.
  unfold graph_insert_node. intros (p & h1 & _ & H)%bind_Ok_inv.
  apply bind_Ok_inv in H as (a & h2 & Ha & H).
  apply bind_Ok_inv in H as (a' & h3 & Ha' & H).
  apply bind_Ok_inv in H as (n & h4 & Hn & H).
  injection H as <- _. unfold the_array in Ha.
  unfold capacity. destruct (nodes g) as [a0|]; [|done]. injection Ha as -> _.
  simpl. intros [= <-]. unfold array_1d_set_value in Ha'.
  destruct (array_1d_slot a (node_amount g)) as [k|] eqn:Ek; [|done].
  destruct (_ <? _)%nat; [|done]. injection Ha' as <- _. simpl.
  unfold int_add in Hn. destruct (in_int _); [|done]. injection Hn as <- _.
  unfold array_1d_slot in Ek.
  destruct ((low a <=? node_amount g) && (node_amount g <=? high a)) eqn:E; [|done].
  apply andb_true_iff in E as [_ E]. apply Z.leb_le in E.
  unfold array_1d_high. split; [done|lia].
Qed.

Lemma find_or_insert_in_range g s p h g1 p1 h1 c :
  (if is_null p
   then g' ← graph_insert_node g s; p' ← graph_find_node g' s; mret (g', p')
   else mret (g, p)) h = Ok (g1, p1) h1 →
  capacity g = Some c → node_amount g ≤ c + 1 →
  capacity g1 = Some c ∧ node_amount g1 ≤ c + 1.
Proof.
  destruct (is_null p).
  - intros (g' & h' & Hins & H)%bind_Ok_inv Hc _.
    apply bind_Ok_inv in H as (p' & h2 & _ & H). injection H as <- _ _.
    by eapply graph_insert_node_in_range.
  - by intros [= <- _ _].
Qed.

Lemma create_graph_in_range l : ∀ g h g' h' c,
  create_graph g l h = Ok g' h' → capacity g = Some c → node_amount g ≤ c + 1 →
  capacity g' = Some c ∧ node_amount g' ≤ c + 1.
Proof.
  induction l as [|e l IH]; intros g h g' h' c H Hc Hn; simpl in H.
  - by injection H as <- _.
  - apply bind_Ok_inv in H as (s & h1 & _ & H).
    apply bind_Ok_inv in H as ([g1 s1] & h2 & H1 & H).
    apply bind_Ok_inv in H as (d & h3 & _ & H).
    apply bind_Ok_inv in H as ([g2 d1] & h4 & H2 & H).
    apply bind_Ok_inv in H as (g3 & h5 & H3 & H).
    apply graph_insert_edge_graph in H3 as ->.
    destruct (find_or_insert_in_range _ _ _ _ _ _ _ _ H1 Hc Hn) as [Hc1 Hn1].
    destruct (find_or_insert_in_range _ _ _ _ _ _ _ _ H2 Hc1 Hn1) as [Hc2 Hn2].
    by eapply IH.
Qed.

(** X20.  More nodes than the array holds are not reported.  For a file
    that is well formed (edge count E > 0, edge lines with two valid names)
    but names more than 4·E + 1 different nodes, the loader neither
    returns a graph nor ends the process with an error: it writes past the
    node array, which is undefined behaviour. *)
Theorem prepare_graph_too_many_nodes fs argv path fp E fp1 h names :
  argv !! 1%nat = Some path → fopen fs path = Some fp →
  get_number_of_edges_scan fp = (E, true, fp1) →
  0 < E → 4 * E ≤ INT_MAX →
  forallb valid_edge_line (List.filter is_edge_line fp1) = true →
  NoDup names → (∀ x, x ∈ names → occurs_in (file_edges fp1) x) →
  4 * E + 1 < Z.of_nat (length names) →
  prepare_graph fs argv [] h = Undefined.
Proof.
  intros Hpath Hfp Hscan HE Hmax Hvalid Hnd Hnames Hmany.
  pose proof (info_from_file_run fs argv path fp E fp1 h Hpath Hfp Hscan HE Hmax Hvalid)
    as Hinfo.
  unfold prepare_graph. rewrite (bind_Ok _ _ _ _ _ Hinfo).
  set (l1 := rev (edge_of_line <$> List.filter is_edge_line fp1) ++ []) in *.
  pose proof (never_exits_create_graph l1 (graph_empty (4 * E)) h) as Hne.
  destruct (create_graph (graph_empty (4 * E)) l1 h) as [g h'| | |] eqn:Hrun; try done.
  exfalso.
  destruct (create_graph_names _ _ _ _ _ (graph_ok_empty h (4 * E)) Hrun)
    as (Hok & Hhas & _).
  destruct (create_graph_in_range l1 _ _ _ _ (4 * E) Hrun) as [_ Hn];
    [done|simpl; lia|].
  assert (Hsub : names ⊆+ name_of h' <$> stored_nodes g).
  { apply NoDup_submseteq; [done|]. intros x Hx.
    destruct (Hnames x Hx) as (e & He & Hxe).
    destruct (proj2 (Hhas x)) as (p & Hp & Hpn).
    { right. exists e. split; [|done]. unfold l1. rewrite app_nil_r.
      by rewrite list_elem_of_In, <- in_rev, <- list_elem_of_In. }
    rewrite <- Hpn. by apply list_elem_of_fmap_2. }
  apply submseteq_length in Hsub. rewrite length_fmap in Hsub.
  rewrite (length_stored_nodes h' g (graph_ok_wf _ _ Hok)) in Hsub.
  pose proof Hok as (_ & _ & _ & _ & Hn0)%graph_ok_iff. lia.
Qed.

Lemma prepare_graph_too_many_nodes_witness :
  prepare_graph crowded_fs ["is_connected"; "crowded.txt"]%string [] [] = Undefined.
Proof.
  apply (prepare_graph_too_many_nodes crowded_fs ["is_connected"; "crowded.txt"]%string
           "crowded.txt" ["1" ++ nl; "a b" ++ nl; "c d" ++ nl; "e f" ++ nl]%string 1
           ["a b" ++ nl; "c d" ++ nl; "e f" ++ nl]%string []
           ["a"; "b"; "c"; "d"; "e"; "f"]%string).
  - reflexivity.
  - vm_compute; reflexivity.
  - vm_compute; reflexivity.
  - lia.
  - vm_compute; discriminate.
  - vm_compute; reflexivity.
  - apply (bool_decide_unpack _). vm_compute. exact I.
  - intros x Hx.
    assert (Hfe : file_edges ["a b" ++ nl; "c d" ++ nl; "e f" ++ nl]%string
                  = [ {| src := "a"; dest := "b" |}; {| src := "c"; dest := "d" |};
                      {| src := "e"; dest := "f" |} ]) by reflexivity.
    unfold occurs_in. rewrite Hfe.
    apply elem_of_cons in Hx as [->|Hx].
    { exists {| src := "a"; dest := "b" |}. split; [by left|by left]. }
    apply elem_of_cons in Hx as [->|Hx].
    { exists {| src := "a"; dest := "b" |}. split; [by left|by right]. }
    apply elem_of_cons in Hx as [->|Hx].
    { exists {| src := "c"; dest := "d" |}. split; [by right; left|by left]. }
    apply elem_of_cons in Hx as [->|Hx].
    { exists {| src := "c"; dest := "d" |}. split; [by right; left|by right]. }
    apply elem_of_cons in Hx as [->|Hx].
    { exists {| src := "e"; dest := "f" |}. split; [by right; right; left|by left]. }
    apply elem_of_cons in Hx as [->|Hx].
    { exists {| src := "e"; dest := "f" |}. split; [by right; right; left|by right]. }
    by apply elem_of_nil in Hx.
  - simpl. lia.
Defined.
